(** * Battle simulator: the resolution engine of [battle-sim/src/app/page.tsx]

    A shallow embedding of the turn-based battle engine of the page
    component, and the properties of its specification.

    Conventions of the embedding.
    - JavaScript numbers that hold health, power, accuracy, energy and damage
      are integers in every run of the program (they start from integer
      literals and only go through [Math.round], [clamp] and subtraction):
      they are [Z].  The numbers that are not integers (the random draws, the
      variation factor, the type multipliers) are exact rationals [Q]; the
      rounding error of binary floating point is not modelled.
    - [Math.random ()] is an explicit argument (the draw, a rational).
    - React state ([useState]), the ref ([useRef]) and the pending
      [window.setTimeout] callbacks are fields of one record, [App]; an event
      handler is a function on [App] that includes the effects React runs at
      the commit that follows it.
    - The projectile list and the shake animation controls are presentation
      state that no guard and no update of the engine reads; they are left
      out. *)

From Stdlib Require Import ZArith QArith Qround Qpower Qminmax List String
  DecimalString Bool Lia.
Import ListNotations.

Open Scope string_scope.
Open Scope Z_scope.

(** ** Data model (lines 12-50) *)

Inductive Side : Type := Player | Opponent.

Inductive MoveType : Type :=
  Fire | Water | Grass | Electric | Ice | Psychic | Fairy | Rock.

Definition MoveType_eqb (a b : MoveType) : bool :=
  match a, b with
  | Fire, Fire | Water, Water | Grass, Grass | Electric, Electric
  | Ice, Ice | Psychic, Psychic | Fairy, Fairy | Rock, Rock => true
  | _, _ => false
  end.

Record Move : Type := mkMove {
  move_name : string;
  move_type : MoveType;
  power : Z;
  accuracy : Z;
  description : string
}.

(** [BattlePokemon extends Pokemon]: the fields of [Pokemon] and [energy]. *)
Record BattlePokemon : Type := mkPokemon {
  name : string;
  hp : Z;
  maxHp : Z;
  types : list MoveType;
  moves : list Move;
  flair : string;
  energy : Z
}.

Record BattleState : Type := mkBattle {
  player : BattlePokemon;
  opponent : BattlePokemon;
  turn : Side;
  victor : option Side
}.

(** [state[side]] *)
Definition getSide (st : BattleState) (side : Side) : BattlePokemon :=
  match side with
  | Player => player st
  | Opponent => opponent st
  end.

(** [{ ...pokemon, hp: h }] *)
Definition with_hp (p : BattlePokemon) (h : Z) : BattlePokemon :=
  {| name := name p; hp := h; maxHp := maxHp p; types := types p;
     moves := moves p; flair := flair p; energy := energy p |}.

(** [{ ...prev, turn: side }] *)
Definition with_turn (st : BattleState) (side : Side) : BattleState :=
  {| player := player st; opponent := opponent st; turn := side;
     victor := victor st |}.

(** [{ ...state, [side]: p }] *)
Definition with_side (st : BattleState) (side : Side) (p : BattlePokemon)
  : BattleState :=
  match side with
  | Player =>
      {| player := p; opponent := opponent st; turn := turn st;
         victor := victor st |}
  | Opponent =>
      {| player := player st; opponent := p; turn := turn st;
         victor := victor st |}
  end.

(** [updated.victor = side] *)
Definition with_victor (st : BattleState) (side : Side) : BattleState :=
  {| player := player st; opponent := opponent st; turn := turn st;
     victor := Some side |}.

(** ** The type chart (lines 131-140) *)

(** A JavaScript object used as a partial table: a list of keys and values,
    read with [lookup]. *)
Fixpoint lookup {A : Type} (k : MoveType) (tbl : list (MoveType * A))
  : option A :=
  match tbl with
  | [] => None
  | (k', v) :: rest => if MoveType_eqb k k' then Some v else lookup k rest
  end.

Definition TYPE_CHART : list (MoveType * list (MoveType * Q)) :=
  [ (Fire,     [(Grass, 2%Q); (Ice, 2%Q); (Rock, 1#2); (Water, 1#2); (Fire, 1#2)]);
    (Water,    [(Fire, 2%Q); (Rock, 2%Q); (Grass, 1#2); (Electric, 1#2)]);
    (Grass,    [(Water, 2%Q); (Rock, 2%Q); (Fire, 1#2); (Grass, 1#2)]);
    (Electric, [(Water, 2%Q); (Grass, 1#2)]);
    (Ice,      [(Grass, 2%Q); (Water, 1#2); (Fire, 1#2); (Rock, 1%Q)]);
    (Psychic,  [(Psychic, 1#2)]);
    (Fairy,    [(Psychic, 1%Q); (Fire, 1#2)]);
    (Rock,     [(Fire, 2%Q); (Electric, 1%Q); (Grass, 1%Q); (Water, 1%Q)]) ].

(** [TYPE_CHART[attack]?.[typing] ?? 1] *)
Definition typeMultiplier (attack typing : MoveType) : Q :=
  match lookup attack TYPE_CHART with
  | Some row =>
      match lookup typing row with
      | Some m => m
      | None => 1%Q
      end
  | None => 1%Q
  end.

(** ** The damage resolver (lines 240-257) *)

(** [Math.max(min, Math.min(max, value))] *)
Definition clamp (value min max : Z) : Z := Z.max min (Z.min max value).

(** [Math.round]: the nearest integer, a tie going up. *)
Definition Math_round (x : Q) : Z := Qfloor (x + (1#2)).

(** [a < b] on numbers. *)
Definition Qltb (a b : Q) : bool := negb (Qle_bool b a).

Record DamageResult : Type := mkDamage {
  damage : Z;
  effectiveness : Q;
  crit : bool
}.

(** [defender.types.reduce((product, typing) => product * ..., 1)] *)
Definition multiplierOf (attack : MoveType) (defTypes : list MoveType) : Q :=
  fold_left (fun product typing => (product * typeMultiplier attack typing)%Q)
            defTypes 1%Q.

(** [0.85 + Math.random() * 0.2] *)
Definition variationOf (rnd : Q) : Q := ((85#100) + rnd * (2#10))%Q.

(** [Math.random() < 0.1] *)
Definition critOf (rnd : Q) : bool := Qltb rnd (1#10).

(** [calculateDamage]; [rndVar] and [rndCrit] are the two calls of
    [Math.random], in the order of the source. *)
Definition calculateDamage (rndVar rndCrit : Q) (move : Move)
  (defender : BattlePokemon) : DamageResult :=
  let base := inject_Z (power move) in
  let variation := variationOf rndVar in
  let crit := critOf rndCrit in
  let multiplier := multiplierOf (move_type move) (types defender) in
  let damage :=
    Math_round (base * variation * (if crit then 3#2 else 1) * multiplier)%Q in
  {| damage := clamp damage 12 90; effectiveness := multiplier; crit := crit |}.

(** ** Teams (lines 142-226) *)

(** [createPokemon]: the template without [hp], health at [maxHp], energy
    100. *)
Definition createPokemon (nm : string) (mx : Z) (tys : list MoveType)
  (mvs : list Move) (fl : string) : BattlePokemon :=
  {| name := nm; hp := mx; maxHp := mx; types := tys; moves := mvs;
     flair := fl; energy := 100 |}.

Definition PLAYER_TEAM : BattlePokemon :=
  createPokemon "Solaris" 260 [Fire; Grass]
    [ mkMove "Flare Cascade" Fire 36 94
        "A cascading wave of golden flame that engulfs the arena.";
      mkMove "Solar Bloom" Grass 28 100
        "Harnesses sunlight to bloom radiant petals that heal slightly.";
      mkMove "Aurora Pulse" Psychic 32 96
        "A prismatic pulse that disorients the foe.";
      mkMove "Stellar Crest" Fairy 30 98
        "A ribbon of stardust that empowers Solaris’ aura." ]
    "Charismatic Sun Drake".

Definition OPPONENT_TEAM : BattlePokemon :=
  createPokemon "Tidal Vanguard" 270 [Water; Electric]
    [ mkMove "Nebula Torrent" Water 34 97
        "A spiralling column of crystal water.";
      mkMove "Ion Crash" Electric 35 92
        "Charged lances of electricity crash into the opponent.";
      mkMove "Frostbound Wake" Ice 27 99
        "Icy shards ride atop the wave with a chilling finish.";
      mkMove "Anchor Bloom" Grass 24 100
        "Sea flora entangles the foe, siphoning their energy." ]
    "Mariner Leviathan".

Definition INITIAL_STATE : BattleState :=
  {| player := PLAYER_TEAM; opponent := OPPONENT_TEAM; turn := Player;
     victor := None |}.

(** ** Log messages (lines 259-263 and 447-454) *)

Definition effectMessage (effectiveness : Q) : option string :=
  if Qltb (3#2) effectiveness then Some "It’s super effective!"
  else if Qltb effectiveness 1 then Some "It’s not very effective…"
  else None.

(** [.filter(Boolean)] on an array of strings and [null]: [null] and the
    empty string are dropped. *)
Fixpoint filterBoolean (l : list (option string)) : list string :=
  match l with
  | [] => []
  | Some (String c rest) :: l' => String c rest :: filterBoolean l'
  | _ :: l' => filterBoolean l'
  end.

Definition turnMessages (attacker defender : BattlePokemon) (move : Move)
  (r : DamageResult) (nextHp : Z) : list string :=
  filterBoolean
    [ Some (name attacker ++ " used " ++ move_name move ++ "!");
      (if crit r then Some "A critical hit!" else None);
      effectMessage (effectiveness r);
      (if (nextHp <=? 0)%Z then Some (name defender ++ " fainted.") else None) ].

(** ** The component state (lines 370-380) *)

(** A pending [window.setTimeout] callback of [resolveTurn]: the outer one
    (620 ms) with the [side] and [move] its closure holds, or the inner one
    (300 ms). *)
Inductive Timer : Type :=
| ResolveTimer (side : Side) (move : Move)
| TrailingTimer.

Record App : Type := mkApp {
  battle : BattleState;          (* useState *)
  battleLog : list string;       (* useState *)
  isResolving : bool;            (* useState *)
  battleRef : BattleState;       (* useRef: battleRef.current *)
  timers : list Timer;           (* pending timeouts of resolveTurn *)
  opponentTimer : bool           (* the 900 ms timeout of the effect is pending *)
}.

Definition INITIAL_LOG : list string :=
  [ "The arena hums to life as Solaris faces the Tidal Vanguard." ].

Definition INITIAL_APP : App :=
  {| battle := INITIAL_STATE; battleLog := INITIAL_LOG; isResolving := false;
     battleRef := INITIAL_STATE; timers := []; opponentTimer := false |}.

Definition isSome {A : Type} (o : option A) : bool :=
  match o with Some _ => true | None => false end.

(** The effect of lines 378-380, run at a commit where [battle] is a new
    object: [battleRef.current = battle]. *)
Definition battleRefEffect (s : App) : App :=
  {| battle := battle s; battleLog := battleLog s;
     isResolving := isResolving s; battleRef := battle s;
     timers := timers s; opponentTimer := opponentTimer s |}.

(** The guard of the effect of lines 465-478. *)
Definition opponentDue (s : App) : bool :=
  match turn (battle s) with
  | Opponent => negb (isSome (victor (battle s))) && negb (isResolving s)
  | Player => false
  end.

(** The effect of lines 465-478.  [resolveTurn] is among its dependencies and
    is a new function at every render (its own dependencies, the objects that
    [useHitShake] returns, are new at every render), so the effect runs at
    every commit: its cleanup clears the pending timeout and its body sets a
    new one when the guard holds. *)
Definition opponentEffect (s : App) : App :=
  {| battle := battle s; battleLog := battleLog s;
     isResolving := isResolving s; battleRef := battleRef s;
     timers := timers s; opponentTimer := opponentDue s |}.

(** ** [resetBattle] (lines 385-395) *)

Definition freshState : BattleState :=
  {| player := with_hp PLAYER_TEAM (maxHp PLAYER_TEAM);
     opponent := with_hp OPPONENT_TEAM (maxHp OPPONENT_TEAM);
     turn := Player; victor := None |}.

(** No pending timeout of [resolveTurn] is cleared. *)
Definition resetBattle (s : App) : App :=
  opponentEffect (battleRefEffect
    {| battle := freshState; battleLog := INITIAL_LOG; isResolving := false;
       battleRef := battleRef s; timers := timers s;
       opponentTimer := opponentTimer s |}).

(** ** [resolveTurn] (lines 397-463) *)

(** The guard of line 400; [isResolving] is the value of the last render,
    which the closure of [resolveTurn] holds. *)
Definition rejected (side : Side) (s : App) : bool :=
  let current := battleRef s in
  isSome (victor current) || isResolving s || (hp (getSide current side) <=? 0)%Z.

Definition defenderSideOf (side : Side) : Side :=
  match side with Player => Opponent | Opponent => Player end.

(** The synchronous part: lines 399-413 and the scheduling of line 414.
    When the guard holds the function returns before it calls a setter: no
    commit follows, the component state is as it was. *)
Definition resolveTurn (side : Side) (move : Move) (s : App) : App :=
  if rejected side s then s
  else
    opponentEffect (battleRefEffect
      {| battle := with_turn (battle s) side; battleLog := battleLog s;
         isResolving := true; battleRef := battleRef s;
         timers := (timers s ++ [ResolveTimer side move])%list;
         opponentTimer := opponentTimer s |}).

(** The state that the timeout of line 414 computes (lines 425-436). *)
Definition applyDamage (state : BattleState) (side : Side) (nextHp : Z)
  : BattleState :=
  let defenderSide := defenderSideOf side in
  let defender := getSide state defenderSide in
  let updated :=
    with_turn (with_side state defenderSide (with_hp defender nextHp))
              defenderSide in
  if (nextHp <=? 0)%Z then with_victor updated side else updated.

(** The callback of the outer timeout (lines 414-460), with the two draws of
    [calculateDamage].  Both branches end in a commit ([cleanup] gives the
    projectiles a new array); only the second gives [battle] a new object. *)
Definition resolveTimeout (side : Side) (move : Move) (rndVar rndCrit : Q)
  (s : App) : App :=
  let defenderSide := defenderSideOf side in
  let state := battleRef s in
  let attacker := getSide state side in
  let defender := getSide state defenderSide in
  if (hp attacker <=? 0)%Z || isSome (victor state) then
    opponentEffect
      {| battle := battle s; battleLog := battleLog s; isResolving := false;
         battleRef := battleRef s; timers := timers s;
         opponentTimer := opponentTimer s |}
  else
    let r := calculateDamage rndVar rndCrit move defender in
    let nextHp := clamp (hp defender - damage r) 0 (maxHp defender) in
    let updated := applyDamage state side nextHp in
    let messages := turnMessages attacker defender move r nextHp in
    opponentEffect
      {| battle := updated;
         battleLog := firstn 8 (messages ++ battleLog s)%list;
         isResolving := isResolving s; battleRef := updated;
         timers := (timers s ++ [TrailingTimer])%list;
         opponentTimer := opponentTimer s |}.

(** The callback of the inner timeout (lines 456-459). *)
Definition trailingTimeout (s : App) : App :=
  opponentEffect
    {| battle := battle s; battleLog := battleLog s; isResolving := false;
       battleRef := battleRef s; timers := timers s;
       opponentTimer := opponentTimer s |}.

(** ** The opponent policy (lines 465-478) *)

(** [moves[Math.floor(rnd * moves.length)]]; [None] is [undefined]. *)
Definition chooseMove (rnd : Q) (combatant : BattlePokemon) : option Move :=
  let index :=
    Qfloor (rnd * inject_Z (Z.of_nat (List.length (moves combatant))))%Q in
  if (index <? 0)%Z then None else nth_error (moves combatant) (Z.to_nat index).

(** The 900 ms timeout has run: it is no longer pending. *)
Definition clearOpponentTimer (s : App) : App :=
  {| battle := battle s; battleLog := battleLog s;
     isResolving := isResolving s; battleRef := battleRef s;
     timers := timers s; opponentTimer := false |}.

(** The callback of the 900 ms timeout.  With no move at the index, [move] is
    [undefined]: [resolveTurn] returns at its guard or else raises at
    [move.type] ([None]). *)
Definition opponentTimeout (rnd : Q) (s : App) : option App :=
  let s' := clearOpponentTimer s in
  match chooseMove rnd (opponent (battleRef s)) with
  | Some move => Some (resolveTurn Opponent move s')
  | None => if rejected Opponent s' then Some s' else None
  end.

(** [playerDisabled] (line 480): the move buttons of the player. *)
Definition playerDisabled (s : App) : bool :=
  match turn (battle s) with
  | Player => isSome (victor (battle s)) || isResolving s
  | Opponent => true
  end.

(** ** Events and runs *)

(** What can happen to the component: a call of the inbound interface, or a
    pending timeout running.  Time is abstracted: a pending timeout may run
    at any moment, which covers every order the delays allow. *)
Inductive Event : Type :=
| SubmitMove (side : Side) (move : Move)
| ResetBattle
| ResolveTimeout (i : nat) (rndVar rndCrit : Q)
| TrailingTimeout (i : nat)
| OpponentTimeout (rnd : Q).

(** A draw of [Math.random]: in [0, 1). *)
Definition isDraw (r : Q) : bool := Qle_bool 0 r && Qltb r 1.

Fixpoint removeNth {A : Type} (i : nat) (l : list A) : list A :=
  match i, l with
  | _, [] => []
  | O, _ :: l' => l'
  | S i', x :: l' => x :: removeNth i' l'
  end.

Definition dropTimer (i : nat) (s : App) : App :=
  {| battle := battle s; battleLog := battleLog s;
     isResolving := isResolving s; battleRef := battleRef s;
     timers := removeNth i (timers s); opponentTimer := opponentTimer s |}.

(** [handle e s]: the state after event [e], or [None] when [e] cannot happen
    in [s] (no such pending timeout, or an exception). *)
Definition handle (e : Event) (s : App) : option App :=
  match e with
  | SubmitMove side move => Some (resolveTurn side move s)
  | ResetBattle => Some (resetBattle s)
  | ResolveTimeout i rndVar rndCrit =>
      match nth_error (timers s) i with
      | Some (ResolveTimer side move) =>
          if isDraw rndVar && isDraw rndCrit
          then Some (resolveTimeout side move rndVar rndCrit (dropTimer i s))
          else None
      | _ => None
      end
  | TrailingTimeout i =>
      match nth_error (timers s) i with
      | Some TrailingTimer => Some (trailingTimeout (dropTimer i s))
      | _ => None
      end
  | OpponentTimeout rnd =>
      if opponentTimer s && isDraw rnd then opponentTimeout rnd s else None
  end.

Fixpoint run (es : list Event) (s : App) : option App :=
  match es with
  | [] => Some s
  | e :: es' =>
      match handle e s with
      | Some s' => run es' s'
      | None => None
      end
  end.

Inductive reachable : App -> Prop :=
| reachable_init : reachable INITIAL_APP
| reachable_step (s s' : App) (e : Event) :
    reachable s -> handle e s = Some s' -> reachable s'.

(** ** The move buttons (lines 598-606) *)

(** A click on the button of the move at [index] of the move list of the
    player.  A disabled button takes no click; there is no button past the
    end of the list. *)
Definition clickMove (index : nat) (s : App) : App :=
  if playerDisabled s then s
  else
    match nth_error (moves (player (battle s))) index with
    | Some move => resolveTurn Player move s
    | None => s
    end.

(** ** The health bar (lines 279-301) *)

(** [Math.max(0, Math.min(1, current / max))].  With [max] zero the source
    divides by zero (the ratio is [NaN] or an infinity); the statements about
    the bar take [max] positive. *)
Definition HealthBar_percent (current max : Z) : Q :=
  Qmax 0 (Qmin 1 (inject_Z current / inject_Z max)).

(** [Math.round(120 * percent)] *)
Definition HealthBar_hue (current max : Z) : Z :=
  Math_round (120 * HealthBar_percent current max).

(** The width of the bar, in percent: [percent * 100]. *)
Definition HealthBar_width (current max : Z) : Q :=
  (HealthBar_percent current max * 100)%Q.

(** ** Projectiles (lines 52-59, 228-238 and 405-412)

    The list of projectiles is not a field of [App]: nothing of the engine
    reads it.  Its two updates are functions on the list itself. *)

(** The fields [id], [bundle], [side], [type], [delay] and [lift]. *)
Record Projectile : Type := mkProjectile {
  proj_id : string;
  proj_bundle : string;
  proj_side : Side;
  proj_type : MoveType;
  proj_delay : Z;
  proj_lift : Q
}.

(** [index.toString()] of an array index. *)
Definition indexToString (index : nat) : string :=
  NilZero.string_of_uint (Nat.to_uint index).

(** [bundleProjectiles].  The bundle name, which the source builds from the
    clock and a draw, is an argument; [draws index] is the draw of
    [Math.random] for the lift of the projectile at [index]. *)
Definition bundleProjectiles (bundle : string) (draws : nat -> Q)
  (side : Side) (type : MoveType) : list Projectile :=
  map (fun index =>
         {| proj_id := bundle ++ "-" ++ indexToString index;
            proj_bundle := bundle;
            proj_side := side;
            proj_type := type;
            proj_delay := Z.of_nat index * 90;
            proj_lift := ((draws index - (1#2)) * 40)%Q |})
      (seq 0 4).

(** [setProjectiles((prev) => [...prev, ...cluster])] (line 406) *)
Definition addCluster (cluster prev : list Projectile) : list Projectile :=
  (prev ++ cluster)%list.

(** [cleanup] (lines 410-412):
    [prev.filter((p) => p.bundle !== cluster[0]?.bundle)]; with an empty
    cluster the right side is [undefined], which no bundle name equals. *)
Definition cleanup (cluster prev : list Projectile) : list Projectile :=
  filter (fun p =>
            match cluster with
            | first :: _ => negb (String.eqb (proj_bundle p) (proj_bundle first))
            | [] => true
            end) prev.

(** * Definitions for the statements

    The formulas of the specification, in its words, and the sample moves
    and states that the examples use. *)



(** The entry of the chart for an attack type and a defender type, when the
    chart has one. *)
Definition chartEntry (attack typing : MoveType) : option Q :=
  match lookup attack TYPE_CHART with
  | Some row => lookup typing row
  | None => None
  end.

(** The per-type multiplier of the specification: the entry, a missing
    entry counting as 1. *)
Definition spec_multiplier (attack typing : MoveType) : Q :=
  match chartEntry attack typing with
  | Some m => m
  | None => 1%Q
  end.

(** The product of the per-type multipliers over a list of types. *)
Fixpoint spec_product (attack : MoveType) (tys : list MoveType) : Q :=
  match tys with
  | [] => 1%Q
  | t :: rest => (spec_multiplier attack t * spec_product attack rest)%Q
  end.


(** Moves of the two teams, by name. *)
Definition IonCrash : Move :=
  mkMove "Ion Crash" Electric 35 92
    "Charged lances of electricity crash into the opponent.".

Definition SolarBloom : Move :=
  mkMove "Solar Bloom" Grass 28 100
    "Harnesses sunlight to bloom radiant petals that heal slightly.".

Definition FlareCascade : Move :=
  mkMove "Flare Cascade" Fire 36 94
    "A cascading wave of golden flame that engulfs the arena.".

(** The state after the first move of the player has been resolved: it is
    the turn of the opponent, and nothing is in flight. *)
Definition afterFirstMove : option App :=
  run [ SubmitMove Player FlareCascade;
        ResolveTimeout 0 0 (1#2);
        TrailingTimeout 0 ] INITIAL_APP.

(** That state, written out. *)
Definition opponentsTurnApp : App :=
  let st := with_turn (with_side INITIAL_STATE Opponent
                         (with_hp OPPONENT_TEAM 255)) Opponent in
  {| battle := st;
     battleLog := [ "Solaris used Flare Cascade!"; "It’s not very effective…";
                    "The arena hums to life as Solaris faces the Tidal Vanguard." ];
     isResolving := false; battleRef := st; timers := [];
     opponentTimer := true |}.

(** The health that the callback gives the defender. *)
Definition nextHpOf (defender : BattlePokemon) (r : DamageResult) : Z :=
  clamp (hp defender - damage r) 0 (maxHp defender).

(** The messages of a resolved turn, in the words of the specification, with
    the texts as the source spells them (a typographic apostrophe in
    [It’s]). *)
Definition spec_messages (attackerName moveName defenderName : string)
  (isCrit : bool) (eff : Q) (nextHp : Z) : list string :=
  ([ (attackerName ++ " used " ++ moveName ++ "!")%string ]
   ++ (if isCrit then [ "A critical hit!" ] else [])
   ++ (if Qlt_le_dec (3#2) eff then [ "It’s super effective!" ]
       else if Qlt_le_dec eff 1 then [ "It’s not very effective…" ]
       else [])
   ++ (if Z.eq_dec nextHp 0 then [ (defenderName ++ " fainted.")%string ] else []))%list.

(** A combatant that differs from its template in health only. *)
Definition fromTemplate (template p : BattlePokemon) : Prop :=
  p = with_hp template (hp p).

(** What every reachable state satisfies: the ref holds the rendered
    BattleState, the combatants are their templates but for health, the log
    is capped, and the timeout of the opponent is pending only while its
    guard holds. *)
Record Inv (s : App) : Prop := mkInv {
  inv_sync : battleRef s = battle s;
  inv_player : fromTemplate PLAYER_TEAM (player (battle s));
  inv_opponent : fromTemplate OPPONENT_TEAM (opponent (battle s));
  inv_log : (List.length (battleLog s) <= 8)%nat;
  inv_timer : opponentTimer s = true -> opponentDue s = true
}.

(** The index of the chosen move: [Math.floor(rnd * n)]. *)
Definition chosenIndex (rnd : Q) (n : nat) : Z :=
  Qfloor (rnd * inject_Z (Z.of_nat n))%Q.

Definition FrostboundWake : Move :=
  mkMove "Frostbound Wake" Ice 27 99
    "Icy shards ride atop the wave with a chilling finish.".

(** What every reachable state satisfies about health, victory and the
    pending timeouts. *)
Record Healthy (s : App) : Prop := mkHealthy {
  hl_player : 0 <= hp (player (battle s)) <= 260;
  hl_opponent : 0 <= hp (opponent (battle s)) <= 270;
  hl_alive :
    victor (battle s) = None ->
    0 < hp (player (battle s)) /\ 0 < hp (opponent (battle s));
  hl_victor :
    forall v : Side,
      victor (battle s) = Some v ->
      0 < hp (getSide (battle s) v) /\
      hp (getSide (battle s) (defenderSideOf v)) = 0;
  hl_busy : isResolving s = true -> timers s <> [];
  hl_timer : opponentTimer s = opponentDue s;
  hl_log : battleLog s <> []
}.

(** A run in which the battle is never reset. *)
Definition isReset (e : Event) : bool :=
  match e with ResetBattle => true | _ => false end.

Definition resetFree (es : list Event) : bool :=
  forallb (fun e => negb (isReset e)) es.

(** At most one resolution in flight: no timeout pending and the busy flag
    clear, or one timeout pending and the busy flag set. *)
Definition singleFlight (s : App) : Prop :=
  (isResolving s = false /\ timers s = []) \/
  (isResolving s = true /\ exists t : Timer, timers s = [t]).

(** A run that ends the battle: four critical Solar Blooms of the player. *)
Definition knockoutRun : list Event :=
  let round :=
    [ SubmitMove Player SolarBloom; ResolveTimeout 0 (99#100) 0;
      TrailingTimeout 0 ] in
  (round ++ round ++ round ++ round)%list.

(** The state at the end of [knockoutRun]. *)
Definition knockedOutApp : App :=
  Eval vm_compute in
    match run knockoutRun INITIAL_APP with
    | Some s => s
    | None => INITIAL_APP
    end.

(** * Properties *)

(** ** Arithmetic of the model *)

Lemma Qltb_lt (a b : Q) : Qltb a b = true <-> (a < b)%Q.
Proof.
  unfold Qltb. rewrite negb_true_iff. split; intro H.
  - apply Qnot_le_lt. intro Hle. apply Qle_bool_iff in Hle. congruence.
  - destruct (Qle_bool b a) eqn:E; [|reflexivity].
    apply Qle_bool_iff in E. exfalso. exact (Qlt_not_le _ _ H E).
Qed.

Lemma Qltb_ge (a b : Q) : Qltb a b = false <-> (b <= a)%Q.
Proof.
  unfold Qltb. rewrite negb_false_iff. apply Qle_bool_iff.
Qed.

Lemma isDraw_iff (r : Q) : isDraw r = true <-> (0 <= r < 1)%Q.
Proof.
  unfold isDraw. rewrite andb_true_iff, Qle_bool_iff, Qltb_lt. tauto.
Qed.

Lemma clamp_bounds (value lo hi : Z) : lo <= hi -> lo <= clamp value lo hi <= hi.
Proof. unfold clamp. lia. Qed.


#[export] Instance Math_round_comp : Proper (Qeq ==> eq) Math_round.
Proof. intros x y E. unfold Math_round. now rewrite E. Qed.

Lemma variationOf_range (rnd : Q) :
  (0 <= rnd < 1)%Q -> ((85#100) <= variationOf rnd < (105#100))%Q.
Proof.
  unfold variationOf. intros [H0 H1]. split.
  - setoid_replace (85#100)%Q with ((85#100) + 0 * (2#10))%Q at 1 by ring.
    apply Qplus_le_r. apply Qmult_le_compat_r; [assumption | discriminate].
  - setoid_replace (105#100)%Q with ((85#100) + 1 * (2#10))%Q by ring.
    apply Qplus_lt_r. apply Qmult_lt_compat_r; [reflexivity | assumption].
Qed.

(** ** The damage resolver *)





Lemma typeMultiplier_spec (attack typing : MoveType) :
  typeMultiplier attack typing = spec_multiplier attack typing.
Proof.
  unfold typeMultiplier, spec_multiplier, chartEntry.
  destruct (lookup attack TYPE_CHART); reflexivity.
Qed.

Lemma fold_multiplier_acc (attack : MoveType) (tys : list MoveType) (acc : Q) :
  (fold_left (fun product typing => product * typeMultiplier attack typing)
     tys acc == acc * spec_product attack tys)%Q.
Proof.
  revert acc. induction tys as [|t rest IH]; intro acc; cbn [fold_left spec_product].
  - ring.
  - rewrite IH, typeMultiplier_spec. ring.
Qed.

Lemma multiplierOf_product (attack : MoveType) (tys : list MoveType) :
  (multiplierOf attack tys == spec_product attack tys)%Q.
Proof.
  unfold multiplierOf. rewrite fold_multiplier_acc. ring.
Qed.

(** C4: the effectiveness that [calculateDamage] returns is the product,
    over the types of the defender, of the chart entry for the attack type
    and that type, a missing entry counting as 1; against a defender of two
    types it is the product of the two per-type multipliers. *)
Theorem effectiveness_is_product :
  forall (rndVar rndCrit : Q) (move : Move),
    (forall defender : BattlePokemon,
        (effectiveness (calculateDamage rndVar rndCrit move defender)
         == spec_product (move_type move) (types defender))%Q) /\
    (forall (nm : string) (h mx : Z) (t1 t2 : MoveType) (mvs : list Move)
            (fl : string) (en : Z),
        (effectiveness
           (calculateDamage rndVar rndCrit move
              (mkPokemon nm h mx [t1; t2] mvs fl en))
         == spec_multiplier (move_type move) t1
            * spec_multiplier (move_type move) t2)%Q).
Proof.
  intros rndVar rndCrit move. split.
  - intro defender. unfold calculateDamage; cbn [effectiveness].
    apply multiplierOf_product.
  - intros. unfold calculateDamage; cbn [effectiveness types].
    rewrite multiplierOf_product. cbn [spec_product]. ring.
Qed.

(** Grass against Water and Rock: two entries of 2 give 4. *)
Example effectiveness_double_weakness :
  effectiveness
    (calculateDamage 0 0 (mkMove "Solar Bloom" Grass 28 100 "")
       (createPokemon "" 100 [Water; Rock] [] "")) = 4%Q.
Proof. reflexivity. Qed.

(** Fire against Water and Electric: an entry of 1/2 and a missing entry
    give 1/2, which is neither the sum 3/2 nor the maximum 1. *)
Example effectiveness_missing_entry :
  chartEntry Fire Water = Some (1#2) /\ chartEntry Fire Electric = None /\
  effectiveness
    (calculateDamage 0 0 (mkMove "Flare Cascade" Fire 36 94 "")
       OPPONENT_TEAM) = (1#2).
Proof. repeat split. Qed.

(** ** Submission: the guard of [resolveTurn] *)

Lemma rejected_true_iff (side : Side) (s : App) :
  rejected side s = true <->
  victor (battleRef s) <> None \/ isResolving s = true \/
  hp (getSide (battleRef s) side) <= 0.
Proof.
  unfold rejected. rewrite !orb_true_iff, Z.leb_le.
  destruct (victor (battleRef s)); cbn; intuition congruence.
Qed.

Lemma rejected_false_iff (side : Side) (s : App) :
  rejected side s = false <->
  victor (battleRef s) = None /\ isResolving s = false /\
  0 < hp (getSide (battleRef s) side).
Proof.
  unfold rejected. rewrite !orb_false_iff, Z.leb_gt.
  destruct (victor (battleRef s)); cbn; intuition congruence.
Qed.

(** The rejection, on what the guard reads: [battleRef.current] and
    [isResolving]. *)
Lemma resolveTurn_rejected (side : Side) (move : Move) (s : App) :
  rejected side s = true -> resolveTurn side move s = s.
Proof. intro H. unfold resolveTurn. now rewrite H. Qed.

Lemma resolveTurn_accepted (side : Side) (move : Move) (s : App) :
  rejected side s = false ->
  resolveTurn side move s =
    {| battle := with_turn (battle s) side; battleLog := battleLog s;
       isResolving := true; battleRef := with_turn (battle s) side;
       timers := (timers s ++ [ResolveTimer side move])%list;
       opponentTimer := false |}.
Proof.
  intro H. unfold resolveTurn. rewrite H.
  unfold opponentEffect, battleRefEffect, opponentDue; cbn.
  destruct side; cbn; try reflexivity.
  now rewrite andb_false_r.
Qed.



(** C1, as the code has it: [resolveTurn] does not look at [turn].  A
    submission by the side whose turn it is not, with no victor set, no
    resolution in flight and positive health of the submitter, is accepted:
    the busy flag is set, the turn becomes the submitting side, the
    resolution is scheduled; the combatants, the victor and the Battle Log
    are as before.  It is the callers that keep such a submission away: in
    that state the move buttons of the player are disabled, and the guard of
    the effect that schedules the move of the opponent is false. *)
Theorem wrong_turn_submission_accepted :
  forall (s : App) (side : Side) (move : Move),
    battleRef s = battle s ->
    turn (battle s) <> side ->
    victor (battle s) = None ->
    isResolving s = false ->
    0 < hp (getSide (battle s) side) ->
    let s' := resolveTurn side move s in
    battle s' = with_turn (battle s) side /\
    turn (battle s') = side /\
    isResolving s' = true /\
    timers s' = (timers s ++ [ResolveTimer side move])%list /\
    battleLog s' = battleLog s /\
    (side = Player -> playerDisabled s = true) /\
    (side = Opponent -> opponentDue s = false).
Proof.
  intros s side move Hsync Hturn Hv Hr Hhp. cbn zeta.
  rewrite resolveTurn_accepted.
  - cbn [battle isResolving timers battleLog turn with_turn].
    repeat split.
    + intros ->. unfold playerDisabled.
      destruct (turn (battle s)); [now elim Hturn | reflexivity].
    + intros ->. unfold opponentDue.
      destruct (turn (battle s)); [reflexivity | now elim Hturn].
  - apply rejected_false_iff. rewrite Hsync. auto.
Qed.

Lemma afterFirstMove_eq : afterFirstMove = Some opponentsTurnApp.
Proof. vm_compute. reflexivity. Qed.

Lemma wrong_turn_submission_accepted_witness :
  turn (battle (resolveTurn Player SolarBloom opponentsTurnApp)) = Player.
Proof.
  apply (wrong_turn_submission_accepted opponentsTurnApp Player SolarBloom);
    try reflexivity.
  cbn. discriminate.
Defined.

(** C1 fails as stated: in the reachable state [opponentsTurnApp] it is the
    turn of the opponent, no victor is set, nothing is in flight and the
    player has positive health, and a submission by the player changes the
    BattleState. *)
Lemma wrong_turn_submission_not_noop :
  let move := SolarBloom in
  let s := opponentsTurnApp in
  afterFirstMove = Some s /\
  turn (battle s) = Opponent /\ victor (battle s) = None /\
  isResolving s = false /\ 0 < hp (player (battle s)) /\
  battle (resolveTurn Player move s) <> battle s /\
  handle (SubmitMove Player move) s <> Some s.
Proof.
  cbn zeta. split; [exact afterFirstMove_eq|].
  repeat split; try reflexivity; cbn; discriminate.
Qed.

(** ** Resolution: the callback of the outer timeout *)

Lemma getSide_applyDamage_defender (st : BattleState) (side : Side) (h : Z) :
  getSide (applyDamage st side h) (defenderSideOf side) =
  with_hp (getSide st (defenderSideOf side)) h.
Proof. unfold applyDamage. destruct side, (h <=? 0); reflexivity. Qed.

Lemma getSide_applyDamage_attacker (st : BattleState) (side : Side) (h : Z) :
  getSide (applyDamage st side h) side = getSide st side.
Proof. unfold applyDamage. destruct side, (h <=? 0); reflexivity. Qed.


Lemma victor_applyDamage (st : BattleState) (side : Side) (h : Z) :
  victor (applyDamage st side h) =
  if h <=? 0 then Some side else victor st.
Proof. unfold applyDamage. destruct side, (h <=? 0); reflexivity. Qed.

Lemma nextHpOf_nonneg (defender : BattlePokemon) (r : DamageResult) :
  0 <= nextHpOf defender r.
Proof. unfold nextHpOf, clamp. lia. Qed.

(** The callback when its own check (line 419) passes. *)
Lemma resolveTimeout_applied (side : Side) (move : Move) (rndVar rndCrit : Q)
  (s : App) :
  0 < hp (getSide (battleRef s) side) ->
  victor (battleRef s) = None ->
  let attacker := getSide (battleRef s) side in
  let defender := getSide (battleRef s) (defenderSideOf side) in
  let r := calculateDamage rndVar rndCrit move defender in
  let nextHp := nextHpOf defender r in
  let updated := applyDamage (battleRef s) side nextHp in
  resolveTimeout side move rndVar rndCrit s =
    opponentEffect
      {| battle := updated;
         battleLog :=
           firstn 8 (turnMessages attacker defender move r nextHp
                     ++ battleLog s)%list;
         isResolving := isResolving s; battleRef := updated;
         timers := (timers s ++ [TrailingTimer])%list;
         opponentTimer := opponentTimer s |}.
Proof.
  intros Hhp Hv. cbn zeta. unfold resolveTimeout.
  apply Z.leb_gt in Hhp. rewrite Hhp, Hv. reflexivity.
Qed.

(** The callback when its own check fails: only the busy flag is reset. *)
Lemma resolveTimeout_aborted (side : Side) (move : Move) (rndVar rndCrit : Q)
  (s : App) :
  hp (getSide (battleRef s) side) <= 0 \/ victor (battleRef s) <> None ->
  resolveTimeout side move rndVar rndCrit s = trailingTimeout s.
Proof.
  intro H. unfold resolveTimeout, trailingTimeout.
  replace ((hp (getSide (battleRef s) side) <=? 0)
           || isSome (victor (battleRef s))) with true; [reflexivity|].
  symmetry. apply orb_true_iff. rewrite Z.leb_le.
  destruct H as [H|H]; [now left | right].
  destruct (victor (battleRef s)); [reflexivity | now elim H].
Qed.

Lemma nth_error_last {A : Type} (l : list A) (x : A) :
  nth_error (l ++ [x]) (List.length l) = Some x.
Proof.
  rewrite nth_error_app2 by lia. now rewrite Nat.sub_diag.
Qed.

Lemma removeNth_last {A : Type} (l : list A) (x : A) :
  removeNth (List.length l) (l ++ [x]) = l.
Proof.
  induction l as [|a l IH]; cbn; [reflexivity | now rewrite IH].
Qed.

(** A submission that is accepted, followed by its outer timeout. *)
Lemma run_submit_resolve (s : App) (side : Side) (move : Move)
  (rndVar rndCrit : Q) :
  rejected side s = false ->
  (0 <= rndVar < 1)%Q -> (0 <= rndCrit < 1)%Q ->
  run [ SubmitMove side move;
        ResolveTimeout (List.length (timers s)) rndVar rndCrit ] s =
  Some (resolveTimeout side move rndVar rndCrit
          {| battle := with_turn (battle s) side; battleLog := battleLog s;
             isResolving := true; battleRef := with_turn (battle s) side;
             timers := timers s; opponentTimer := false |}).
Proof.
  intros Hacc Hv Hc. cbn [run handle].
  rewrite (resolveTurn_accepted _ _ _ Hacc). cbn [timers].
  rewrite nth_error_last.
  apply isDraw_iff in Hv, Hc. rewrite Hv, Hc. cbn [andb].
  unfold dropTimer; cbn [battle battleLog isResolving battleRef timers
                          opponentTimer].
  now rewrite removeNth_last.
Qed.



(** ** The Battle Log of a resolved turn *)

Lemma append_nonempty (a b : string) :
  b <> "" -> exists c rest, a ++ b = String c rest.
Proof.
  intro Hb. destruct a as [|c a].
  - destruct b as [|c b]; [now elim Hb | now exists c, b].
  - now exists c, (a ++ b).
Qed.

Lemma filterBoolean_app (l1 l2 : list (option string)) :
  filterBoolean (l1 ++ l2) = (filterBoolean l1 ++ filterBoolean l2)%list.
Proof.
  induction l1 as [|[[|c rest]|] l1 IH]; cbn; [reflexivity | assumption | | assumption].
  now rewrite IH.
Qed.

Lemma effectMessage_spec (eff : Q) :
  effectMessage eff =
  if Qlt_le_dec (3#2) eff then Some "It’s super effective!"
  else if Qlt_le_dec eff 1 then Some "It’s not very effective…"
  else None.
Proof.
  unfold effectMessage.
  destruct (Qlt_le_dec (3#2) eff) as [H|H].
  - apply Qltb_lt in H. now rewrite H.
  - apply Qltb_ge in H. rewrite H.
    destruct (Qlt_le_dec eff 1) as [H1|H1].
    + apply Qltb_lt in H1. now rewrite H1.
    + apply Qltb_ge in H1. now rewrite H1.
Qed.

Lemma turnMessages_spec (attacker defender : BattlePokemon) (move : Move)
  (r : DamageResult) (nextHp : Z) :
  0 <= nextHp ->
  turnMessages attacker defender move r nextHp =
  spec_messages (name attacker) (move_name move) (name defender)
                (crit r) (effectiveness r) nextHp.
Proof.
  intro Hn. unfold turnMessages, spec_messages.
  destruct (append_nonempty (name attacker) (" used " ++ move_name move ++ "!"))
    as [c [rest E]]; [discriminate|].
  rewrite E.
  change (filterBoolean (Some (String c rest) :: ?l))
    with (String c rest :: filterBoolean l).
  cbn [app]. f_equal.
  rewrite effectMessage_spec.
  assert (Hf : filterBoolean
                 [if nextHp <=? 0 then Some (name defender ++ " fainted.")
                  else None]
               = if Z.eq_dec nextHp 0 then [name defender ++ " fainted."]
                 else []).
  { destruct (Z.eq_dec nextHp 0) as [H0|H0].
    - subst nextHp. cbn [Z.leb Z.compare].
      destruct (append_nonempty (name defender) " fainted.")
        as [c' [rest' E']]; [discriminate|].
      now rewrite E'.
    - destruct (Z.leb_spec nextHp 0); [lia | reflexivity]. }
  change (filterBoolean
            [ if crit r then Some "A critical hit!" else None;
              if Qlt_le_dec (3#2) (effectiveness r)
              then Some "It’s super effective!"
              else if Qlt_le_dec (effectiveness r) 1
                   then Some "It’s not very effective…" else None;
              if nextHp <=? 0 then Some (name defender ++ " fainted.")
              else None ])
    with (filterBoolean
            ([ if crit r then Some "A critical hit!" else None;
               if Qlt_le_dec (3#2) (effectiveness r)
               then Some "It’s super effective!"
               else if Qlt_le_dec (effectiveness r) 1
                    then Some "It’s not very effective…" else None ]
             ++ [ if nextHp <=? 0
                  then Some (name defender ++ " fainted.")%string
                  else None ])%list).
  rewrite filterBoolean_app, Hf.
  destruct (crit r), (Qlt_le_dec (3#2) (effectiveness r)),
    (Qlt_le_dec (effectiveness r) 1); reflexivity.
Qed.

Lemma spec_messages_length (a m d : string) (c : bool) (eff : Q) (h : Z) :
  (1 <= List.length (spec_messages a m d c eff h) <= 4)%nat.
Proof.
  unfold spec_messages.
  destruct c, (Qlt_le_dec (3#2) eff), (Qlt_le_dec eff 1), (Z.eq_dec h 0);
    cbn; lia.
Qed.

Lemma firstn_app_short {A : Type} (n : nat) (l1 l2 : list A) :
  (List.length l1 <= n)%nat ->
  firstn n (l1 ++ l2) = (l1 ++ firstn (n - List.length l1) l2)%list.
Proof.
  intro H. rewrite firstn_app. f_equal. now apply firstn_all2.
Qed.

(** C7, with the texts of the source: a resolved turn puts at the front of
    the Battle Log, in this order, the attack announcement; [A critical hit!]
    iff the crit flag is set; [It’s super effective!] iff the effectiveness
    is above 1.5, [It’s not very effective…] iff it is below 1, and no
    effectiveness line when it is between 1 and 1.5; [<defender> fainted.]
    iff the new health of the defender is 0.  They are 1 to 4 messages, all
    kept by the cap of 8. *)
Theorem resolved_turn_messages :
  forall (s : App) (side : Side) (move : Move) (rndVar rndCrit : Q),
    0 < hp (getSide (battleRef s) side) ->
    victor (battleRef s) = None ->
    let attacker := getSide (battleRef s) side in
    let defender := getSide (battleRef s) (defenderSideOf side) in
    let r := calculateDamage rndVar rndCrit move defender in
    let s' := resolveTimeout side move rndVar rndCrit s in
    let nextHp := hp (getSide (battle s') (defenderSideOf side)) in
    let messages :=
      spec_messages (name attacker) (move_name move) (name defender)
                    (crit r) (effectiveness r) nextHp in
    battleLog s' = firstn 8 (messages ++ battleLog s)%list /\
    firstn (List.length messages) (battleLog s') = messages /\
    (1 <= List.length messages <= 4)%nat.
Proof.
  intros s side move rndVar rndCrit Hhp Hv. cbn zeta.
  rewrite (resolveTimeout_applied _ _ _ _ _ Hhp Hv).
  cbn [opponentEffect battle battleLog].
  rewrite getSide_applyDamage_defender. cbn [hp with_hp].
  rewrite turnMessages_spec by apply nextHpOf_nonneg.
  set (messages := spec_messages _ _ _ _ _ _).
  pose proof (spec_messages_length
                (name (getSide (battleRef s) side)) (move_name move)
                (name (getSide (battleRef s) (defenderSideOf side)))
                (crit (calculateDamage rndVar rndCrit move
                         (getSide (battleRef s) (defenderSideOf side))))
                (effectiveness (calculateDamage rndVar rndCrit move
                         (getSide (battleRef s) (defenderSideOf side))))
                (nextHpOf (getSide (battleRef s) (defenderSideOf side))
                   (calculateDamage rndVar rndCrit move
                      (getSide (battleRef s) (defenderSideOf side)))))
    as Hlen.
  fold messages in Hlen.
  split; [reflexivity|]. split; [|exact Hlen].
  rewrite firstn_app_short by lia.
  rewrite firstn_app, firstn_all, Nat.sub_diag. cbn [firstn].
  apply app_nil_r.
Qed.

Lemma resolved_turn_messages_witness :
  battleLog (resolveTimeout Player SolarBloom 0 0 INITIAL_APP) =
  [ "Solaris used Solar Bloom!"; "A critical hit!"; "It’s super effective!";
    "The arena hums to life as Solaris faces the Tidal Vanguard." ].
Proof.
  destruct (resolved_turn_messages INITIAL_APP Player SolarBloom 0 0)
    as [Hlog _]; [reflexivity | reflexivity |].
  rewrite Hlog. vm_compute. reflexivity.
Defined.

(** C7 fails as stated on the text of the effectiveness line: the move Solar
    Bloom has effectiveness 2 against the opponent, and the line that the
    turn logs is not the one with the plain apostrophe. *)
Lemma effectiveness_line_text :
  exists s' : App,
    run [ SubmitMove Player SolarBloom; ResolveTimeout 0 0 (1#2) ]
        INITIAL_APP = Some s' /\
    (3#2 < effectiveness (calculateDamage 0 (1#2) SolarBloom OPPONENT_TEAM))%Q /\
    ~ In "It's super effective!" (battleLog s') /\
    battleLog s' =
      [ "Solaris used Solar Bloom!"; "It’s super effective!";
        "The arena hums to life as Solaris faces the Tidal Vanguard." ].
Proof.
  eexists. split; [vm_compute; reflexivity|].
  split; [reflexivity|]. split; [|reflexivity].
  cbn. intros [H|[H|[H|[]]]]; discriminate H.
Qed.

(** ** Invariants of the reachable states *)

Lemma fromTemplate_with_hp (template p : BattlePokemon) (h : Z) :
  fromTemplate template p -> fromTemplate template (with_hp p h).
Proof.
  unfold fromTemplate. intro H. rewrite H at 1. reflexivity.
Qed.

Lemma Inv_initial : Inv INITIAL_APP.
Proof.
  constructor; try reflexivity.
  - cbn. lia.
  - discriminate.
Qed.

Lemma Inv_resetBattle (s : App) : Inv (resetBattle s).
Proof.
  constructor; try reflexivity.
  - cbn. lia.
  - discriminate.
Qed.

Lemma Inv_resolveTurn (side : Side) (move : Move) (s : App) :
  Inv s -> Inv (resolveTurn side move s).
Proof.
  intros [Hs Hp Ho Hl Ht]. unfold resolveTurn.
  destruct (rejected side s); [now constructor|].
  constructor; cbn; auto.
Qed.

Lemma Inv_trailingTimeout (s : App) : Inv s -> Inv (trailingTimeout s).
Proof.
  intros [Hs Hp Ho Hl Ht]. constructor; cbn; auto.
Qed.

Lemma Inv_dropTimer (i : nat) (s : App) : Inv s -> Inv (dropTimer i s).
Proof.
  intros [Hs Hp Ho Hl Ht]. constructor; cbn; auto.
Qed.

Lemma fromTemplate_applyDamage (st : BattleState) (side : Side) (h : Z) :
  fromTemplate PLAYER_TEAM (player st) ->
  fromTemplate OPPONENT_TEAM (opponent st) ->
  fromTemplate PLAYER_TEAM (player (applyDamage st side h)) /\
  fromTemplate OPPONENT_TEAM (opponent (applyDamage st side h)).
Proof.
  intros Hp Ho. unfold applyDamage.
  destruct side, (h <=? 0); cbn; split;
    auto using fromTemplate_with_hp.
Qed.

Lemma Inv_resolveTimeout (side : Side) (move : Move) (rndVar rndCrit : Q)
  (s : App) : Inv s -> Inv (resolveTimeout side move rndVar rndCrit s).
Proof.
  intros [Hs Hp Ho Hl Ht]. unfold resolveTimeout.
  destruct ((hp (getSide (battleRef s) side) <=? 0)
            || isSome (victor (battleRef s))).
  - constructor; cbn; auto.
  - rewrite <- Hs in Hp, Ho.
    destruct (fromTemplate_applyDamage (battleRef s) side
                (clamp (hp (getSide (battleRef s) (defenderSideOf side))
                        - damage (calculateDamage rndVar rndCrit move
                                    (getSide (battleRef s) (defenderSideOf side))))
                   0 (maxHp (getSide (battleRef s) (defenderSideOf side))))
                Hp Ho) as [Hp' Ho'].
    constructor; cbn [opponentEffect battle battleRef battleLog opponentTimer];
      auto.
    apply firstn_le_length.
Qed.

Lemma Inv_opponentTimeout (rnd : Q) (s s' : App) :
  Inv s -> opponentTimeout rnd s = Some s' -> Inv s'.
Proof.
  intros HI H. unfold opponentTimeout in H.
  assert (HI' : Inv (clearOpponentTimer s)).
  { destruct HI as [Hs Hp Ho Hl Ht]. constructor; cbn; auto. discriminate. }
  destruct (chooseMove rnd (opponent (battleRef s))).
  - injection H as <-. now apply Inv_resolveTurn.
  - destruct (rejected Opponent _); [|discriminate].
    now injection H as <-.
Qed.

Lemma Inv_handle (e : Event) (s s' : App) :
  Inv s -> handle e s = Some s' -> Inv s'.
Proof.
  intros HI H. destruct e as [side move| |i rv rc|i|rnd]; cbn in H.
  - injection H as <-. now apply Inv_resolveTurn.
  - injection H as <-. apply Inv_resetBattle.
  - destruct (nth_error (timers s) i) as [[side move|]|]; try discriminate.
    destruct (isDraw rv && isDraw rc); [|discriminate].
    injection H as <-. now apply Inv_resolveTimeout, Inv_dropTimer.
  - destruct (nth_error (timers s) i) as [[side move|]|]; try discriminate.
    injection H as <-. now apply Inv_trailingTimeout, Inv_dropTimer.
  - destruct (opponentTimer s && isDraw rnd); [|discriminate].
    now apply (Inv_opponentTimeout rnd s).
Qed.

Lemma reachable_Inv (s : App) : reachable s -> Inv s.
Proof.
  induction 1 as [|s s' e _ IH H]; [exact Inv_initial|].
  exact (Inv_handle e s s' IH H).
Qed.

Lemma run_reachable (es : list Event) (s s' : App) :
  reachable s -> run es s = Some s' -> reachable s'.
Proof.
  revert s. induction es as [|e es IH]; intros s Hr H; cbn in H.
  - now injection H as <-.
  - destruct (handle e s) as [s1|] eqn:E; [|discriminate].
    exact (IH s1 (reachable_step s s1 e Hr E) H).
Qed.

(** ** The cap of the Battle Log *)





(** ** The opponent policy *)

Lemma Qfloor_iff (x : Q) (i : Z) :
  Qfloor x = i <-> (inject_Z i <= x < inject_Z (i + 1))%Q.
Proof.
  split.
  - intros <-. split; [apply Qfloor_le | apply Qlt_floor].
  - intros [Hlo Hhi]. apply Z.le_antisymm.
    + apply Z.lt_succ_r. rewrite Zlt_Qlt.
      apply Qle_lt_trans with x; [apply Qfloor_le | exact Hhi].
    + rewrite <- (Qfloor_Z i). now apply Qfloor_resp_le.
Qed.

(** Index [i] is chosen exactly for the draws of the interval from [i / n]
    to [(i + 1) / n]: the [n] indices have intervals of the same length. *)
Lemma chosenIndex_interval (rnd : Q) (n : nat) (i : Z) :
  (0 < n)%nat ->
  chosenIndex rnd n = i <->
  (inject_Z i / inject_Z (Z.of_nat n) <= rnd
   < inject_Z (i + 1) / inject_Z (Z.of_nat n))%Q.
Proof.
  intro Hn. unfold chosenIndex. rewrite Qfloor_iff.
  assert (Hpos : (0 < inject_Z (Z.of_nat n))%Q).
  { change 0%Q with (inject_Z 0). rewrite <- Zlt_Qlt. lia. }
  assert (Hne : ~ (inject_Z (Z.of_nat n) == 0)%Q).
  { intro E. rewrite E in Hpos. discriminate. }
  split; intros [Hlo Hhi]; split.
  - now apply Qle_shift_div_r.
  - now apply Qlt_shift_div_l.
  - apply (Qmult_le_compat_r _ _ (inject_Z (Z.of_nat n))) in Hlo;
      [|now apply Qlt_le_weak].
    revert Hlo. now field_simplify (inject_Z i / inject_Z (Z.of_nat n)
                                     * inject_Z (Z.of_nat n))%Q.
  - apply (Qmult_lt_compat_r _ _ (inject_Z (Z.of_nat n))) in Hhi;
      [|exact Hpos].
    revert Hhi. now field_simplify (inject_Z (i + 1) / inject_Z (Z.of_nat n)
                                     * inject_Z (Z.of_nat n))%Q.
Qed.

Lemma chosenIndex_range (rnd : Q) (n : nat) :
  (0 <= rnd < 1)%Q -> (0 < n)%nat ->
  0 <= chosenIndex rnd n < Z.of_nat n.
Proof.
  intros [H0 H1] Hn. unfold chosenIndex.
  assert (Hpos : (0 < inject_Z (Z.of_nat n))%Q).
  { change 0%Q with (inject_Z 0). rewrite <- Zlt_Qlt. lia. }
  split.
  - change 0 with (Qfloor 0). apply Qfloor_resp_le.
    apply Qmult_le_0_compat; [exact H0 | now apply Qlt_le_weak].
  - rewrite Zlt_Qlt.
    apply Qle_lt_trans with (rnd * inject_Z (Z.of_nat n))%Q;
      [apply Qfloor_le|].
    setoid_replace (inject_Z (Z.of_nat n))
      with (1 * inject_Z (Z.of_nat n))%Q at 2 by ring.
    now apply Qmult_lt_compat_r.
Qed.

Lemma chooseMove_member (rnd : Q) (combatant : BattlePokemon) :
  (0 <= rnd < 1)%Q -> moves combatant <> [] ->
  exists move : Move,
    chooseMove rnd combatant = Some move /\
    nth_error (moves combatant)
      (Z.to_nat (chosenIndex rnd (List.length (moves combatant))))
    = Some move /\
    In move (moves combatant).
Proof.
  intros Hr Hne.
  assert (Hn : (0 < List.length (moves combatant))%nat).
  { destruct (moves combatant); [now elim Hne | cbn; lia]. }
  pose proof (chosenIndex_range rnd _ Hr Hn) as [Hlo Hhi].
  unfold chooseMove. fold (chosenIndex rnd (List.length (moves combatant))).
  destruct (Z.ltb_spec (chosenIndex rnd (List.length (moves combatant))) 0);
    [lia|].
  destruct (nth_error (moves combatant)
              (Z.to_nat (chosenIndex rnd (List.length (moves combatant)))))
    as [move|] eqn:E.
  - exists move. repeat split. eapply nth_error_In, E.
  - apply nth_error_None in E. lia.
Qed.

(** C9: whenever the opponent policy runs in a reachable state, it is the
    turn of the opponent and no victor is set (the battle is not concluded);
    the move it submits is the element of the move list of the opponent at
    index floor(rnd * number of moves), a member of that list; and an index
    is chosen exactly for the draws of an interval of length 1 / number of
    moves, the same for every index. *)
Theorem opponent_policy_choice :
  forall (s : App) (rnd : Q) (s' : App),
    reachable s ->
    handle (OpponentTimeout rnd) s = Some s' ->
    let mvs := moves (opponent (battle s)) in
    turn (battle s) = Opponent /\ victor (battle s) = None /\
    (exists move : Move,
        chooseMove rnd (opponent (battle s)) = Some move /\
        nth_error mvs (Z.to_nat (chosenIndex rnd (List.length mvs)))
        = Some move /\
        In move mvs /\
        s' = resolveTurn Opponent move (clearOpponentTimer s)) /\
    (forall i : Z,
        chosenIndex rnd (List.length mvs) = i <->
        (inject_Z i / inject_Z (Z.of_nat (List.length mvs)) <= rnd
         < inject_Z (i + 1) / inject_Z (Z.of_nat (List.length mvs)))%Q).
Proof.
  intros s rnd s' Hr H. cbn zeta.
  destruct (reachable_Inv s Hr) as [Hs Hp Ho Hl Ht].
  cbn in H.
  destruct (opponentTimer s) eqn:Et; [|discriminate].
  destruct (isDraw rnd) eqn:Ed; [|discriminate]. cbn [andb] in H.
  apply isDraw_iff in Ed.
  specialize (Ht eq_refl). unfold opponentDue in Ht.
  assert (Hmv : moves (opponent (battle s)) <> []).
  { rewrite Ho. discriminate. }
  destruct (turn (battle s)); [discriminate|].
  split; [reflexivity|]. split.
  { destruct (victor (battle s)); [discriminate | reflexivity]. }
  split.
  - destruct (chooseMove_member rnd (opponent (battle s)) Ed Hmv)
      as [move [Hc [Hn Hin]]].
    exists move. repeat split; try assumption.
    unfold opponentTimeout in H. rewrite Hs, Hc in H. now injection H.
  - intro i. apply chosenIndex_interval.
    destruct (moves (opponent (battle s))); [now elim Hmv | cbn; lia].
Qed.

Lemma opponentsTurnApp_reachable : reachable opponentsTurnApp.
Proof.
  apply (run_reachable
           [ SubmitMove Player FlareCascade; ResolveTimeout 0 0 (1#2);
             TrailingTimeout 0 ] INITIAL_APP).
  - exact reachable_init.
  - exact afterFirstMove_eq.
Qed.

Lemma opponent_policy_choice_witness :
  handle (OpponentTimeout (1#2)) opponentsTurnApp
  = Some (resolveTurn Opponent FrostboundWake
            (clearOpponentTimer opponentsTurnApp)) /\
  turn (battle opponentsTurnApp) = Opponent /\
  In FrostboundWake (moves (opponent (battle opponentsTurnApp))).
Proof.
  assert (H : handle (OpponentTimeout (1#2)) opponentsTurnApp
              = Some (resolveTurn Opponent FrostboundWake
                        (clearOpponentTimer opponentsTurnApp)))
    by (vm_compute; reflexivity).
  split; [exact H|].
  destruct (opponent_policy_choice opponentsTurnApp (1#2) _
              opponentsTurnApp_reachable H)
    as [Ht [_ [[move [Hc [_ [Hin _]]]] _]]].
  split; [exact Ht|].
  vm_compute in Hc. injection Hc as <-. exact Hin.
Defined.

(** ** The frame of a resolution step *)

Lemma fromTemplate_energy (template p : BattlePokemon) :
  fromTemplate template p -> energy p = energy template.
Proof. intro H. now rewrite H. Qed.

(** C10: an accepted submission and its resolution, from a reachable state,
    leave the attacking combatant as it was, and change no field of the
    defending combatant but its health: name, maxHp, types, moves, flair and
    energy are the same; only the defender's health, the turn and the victor
    of the BattleState can differ.  The energy of both combatants is 100,
    before and after. *)
Theorem resolution_step_frame :
  forall (s : App) (side : Side) (move : Move) (rndVar rndCrit : Q),
    reachable s ->
    victor (battle s) = None ->
    isResolving s = false ->
    0 < hp (getSide (battle s) side) ->
    (0 <= rndVar < 1)%Q -> (0 <= rndCrit < 1)%Q ->
    exists s2 : App,
      run [ SubmitMove side move;
            ResolveTimeout (List.length (timers s)) rndVar rndCrit ] s
      = Some s2 /\
      getSide (battle s2) side = getSide (battle s) side /\
      (let defender := getSide (battle s) (defenderSideOf side) in
       let defender' := getSide (battle s2) (defenderSideOf side) in
       defender' = with_hp defender (hp defender') /\
       name defender' = name defender /\
       maxHp defender' = maxHp defender /\
       types defender' = types defender /\
       moves defender' = moves defender /\
       flair defender' = flair defender /\
       energy defender' = energy defender) /\
      (exists (h : Z) (t : Side) (v : option Side),
          battle s2 =
            {| player := player (with_side (battle s) (defenderSideOf side)
                                   (with_hp (getSide (battle s)
                                               (defenderSideOf side)) h));
               opponent := opponent (with_side (battle s) (defenderSideOf side)
                                       (with_hp (getSide (battle s)
                                                   (defenderSideOf side)) h));
               turn := t; victor := v |}) /\
      energy (player (battle s)) = 100 /\
      energy (opponent (battle s)) = 100 /\
      energy (player (battle s2)) = 100 /\
      energy (opponent (battle s2)) = 100.
Proof.
  intros s side move rndVar rndCrit Hreach Hv Hr Hhp Hdv Hdc.
  pose proof (reachable_Inv s Hreach) as HI.
  pose proof (inv_sync s HI) as Hsync.
  assert (Hacc : rejected side s = false).
  { apply rejected_false_iff. rewrite Hsync. auto. }
  pose proof (run_submit_resolve s side move rndVar rndCrit Hacc Hdv Hdc)
    as Hrun.
  set (s2 := resolveTimeout side move rndVar rndCrit _) in Hrun.
  exists s2. split; [exact Hrun|].
  pose proof (reachable_Inv s2 (run_reachable _ s s2 Hreach Hrun)) as HI2.
  assert (Hb : exists h : Z,
             battle s2 = applyDamage (with_turn (battle s) side) side h).
  { unfold s2. rewrite resolveTimeout_applied; cbn [battleRef];
      [| destruct side; exact Hhp | exact Hv ].
    eexists. reflexivity. }
  destruct Hb as [h Hb].
  split; [|split; [|split]].
  - rewrite Hb, getSide_applyDamage_attacker. destruct side; reflexivity.
  - cbn zeta. rewrite Hb, getSide_applyDamage_defender.
    replace (getSide (with_turn (battle s) side) (defenderSideOf side))
      with (getSide (battle s) (defenderSideOf side))
      by (destruct side; reflexivity).
    repeat split.
  - exists h, (turn (battle s2)), (victor (battle s2)).
    rewrite Hb. unfold applyDamage.
    destruct side, (h <=? 0); reflexivity.
  - rewrite (fromTemplate_energy _ _ (inv_player s HI)),
      (fromTemplate_energy _ _ (inv_opponent s HI)),
      (fromTemplate_energy _ _ (inv_player s2 HI2)),
      (fromTemplate_energy _ _ (inv_opponent s2 HI2)).
    repeat split.
Qed.

Lemma resolution_step_frame_witness :
  exists s2 : App,
    run [ SubmitMove Player FlareCascade; ResolveTimeout 0 0 (1#2) ]
        INITIAL_APP = Some s2 /\
    player (battle s2) = PLAYER_TEAM /\
    energy (opponent (battle s2)) = 100.
Proof.
  destruct (resolution_step_frame INITIAL_APP Player FlareCascade 0 (1#2))
    as [s2 [Hrun [Hatt [_ [_ [_ [_ [_ He]]]]]]]];
    try reflexivity; try exact reachable_init;
    try (split; [discriminate | reflexivity]).
  exists s2. split; [exact Hrun|]. split; [exact Hatt | exact He].
Defined.

(** Every reachable state has both combatants as their templates, health
    apart; the energy is 100. *)
Lemma reachable_energy (s : App) :
  reachable s ->
  energy (player (battle s)) = 100 /\ energy (opponent (battle s)) = 100.
Proof.
  intro Hr. pose proof (reachable_Inv s Hr) as HI.
  rewrite (fromTemplate_energy _ _ (inv_player s HI)),
    (fromTemplate_energy _ _ (inv_opponent s HI)).
  split; reflexivity.
Qed.

(** ** A reset while a resolution is in flight *)

(** [resetBattle] leaves the pending timeouts of [resolveTurn] as they
    are. *)
Lemma resetBattle_keeps_timers (s : App) :
  timers (resetBattle s) = timers s /\
  battle (resetBattle s) = freshState /\
  battleRef (resetBattle s) = freshState.
Proof. repeat split. Qed.

(** C2, on the code: the player submits Flare Cascade in the initial state,
    the battle is reset before the outer timeout runs, and the timeout then
    runs (variation draw 0, no critical hit).  Its callback reads the state
    of the reset through the ref, passes its own check, and applies the stale
    move to it: the opponent goes from 270 to 255 health, the turn passes to
    the opponent, and the log of the reset gets two lines of the stale
    turn. *)
Theorem stale_resolution_hits_reset_state :
  exists s1 s2 s3 : App,
    handle (SubmitMove Player FlareCascade) INITIAL_APP = Some s1 /\
    handle ResetBattle s1 = Some s2 /\
    battle s2 = freshState /\ battleLog s2 = INITIAL_LOG /\
    isResolving s2 = false /\
    timers s2 = [ResolveTimer Player FlareCascade] /\
    handle (ResolveTimeout 0 0 (1#2)) s2 = Some s3 /\
    battle s3 <> freshState /\
    hp (opponent (battle s3)) = 255 /\
    hp (opponent freshState) = 270 /\
    turn (battle s3) = Opponent /\
    battleLog s3 =
      [ "Solaris used Flare Cascade!"; "It’s not very effective…";
        "The arena hums to life as Solaris faces the Tidal Vanguard." ].
Proof.
  do 3 eexists.
  split; [reflexivity|]. split; [reflexivity|].
  split; [reflexivity|]. split; [reflexivity|].
  split; [reflexivity|]. split; [reflexivity|].
  split; [vm_compute; reflexivity|].
  split; [vm_compute; discriminate|].
  repeat split.
Qed.

(** Whatever the stale move and the draws, the callback of a timeout that
    was pending at the reset takes health from a combatant of the reset
    state. *)
Lemma stale_resolution_always_applies (s : App) (i : nat) (side : Side)
  (move : Move) (rndVar rndCrit : Q) :
  nth_error (timers s) i = Some (ResolveTimer side move) ->
  (0 <= rndVar < 1)%Q -> (0 <= rndCrit < 1)%Q ->
  exists s' : App,
    handle (ResolveTimeout i rndVar rndCrit) (resetBattle s) = Some s' /\
    hp (getSide (battle s') (defenderSideOf side))
    < hp (getSide freshState (defenderSideOf side)).
Proof.
  intros Hn Hv Hc. eexists. split.
  - cbn [handle]. rewrite (proj1 (resetBattle_keeps_timers s)), Hn.
    apply isDraw_iff in Hv, Hc. rewrite Hv, Hc. reflexivity.
  - rewrite resolveTimeout_applied;
      [| destruct side; reflexivity | reflexivity ].
    cbn [opponentEffect battle].
    rewrite getSide_applyDamage_defender. cbn [hp with_hp].
    change (battleRef (dropTimer i (resetBattle s))) with freshState.
    unfold nextHpOf.
    pose proof (clamp_bounds
                  (Math_round
                     (inject_Z (power move) * variationOf rndVar
                      * (if critOf rndCrit then 3 # 2 else 1)
                      * multiplierOf (move_type move)
                          (types (getSide freshState (defenderSideOf side)))))
                  12 90 ltac:(lia)) as Hd.
    unfold calculateDamage; cbn [damage].
    destruct side; cbn [defenderSideOf getSide freshState opponent player
                         with_hp hp maxHp PLAYER_TEAM OPPONENT_TEAM
                         createPokemon] in *;
      unfold clamp in *; lia.
Qed.

(** * Further properties of the engine *)

(** ** Health, victory and the pending timeouts *)

Lemma Healthy_initial : Healthy INITIAL_APP.
Proof.
  constructor; cbn; try lia; try discriminate; try reflexivity.
Qed.

Lemma Healthy_resetBattle (s : App) :
  (isResolving s = true -> timers s <> []) -> Healthy (resetBattle s).
Proof.
  intro Hb. constructor; cbn; try lia; try discriminate; try reflexivity.
Qed.

Lemma app_not_nil {A : Type} (l : list A) (x : A) : (l ++ [x])%list <> [].
Proof. destruct l; discriminate. Qed.

Lemma Healthy_resolveTurn (side : Side) (move : Move) (s : App) :
  Healthy s -> Healthy (resolveTurn side move s).
Proof.
  intros HH. destruct (rejected side s) eqn:Hrej.
  - now rewrite resolveTurn_rejected.
  - rewrite resolveTurn_accepted by exact Hrej.
    destruct HH as [Hp Ho Ha Hv Hb Ht Hl].
    constructor; cbn [battle battleLog isResolving timers opponentTimer
                      with_turn player opponent victor].
    + exact Hp.
    + exact Ho.
    + exact Ha.
    + intros v E. specialize (Hv v E). destruct v; exact Hv.
    + intros _. apply app_not_nil.
    + unfold opponentDue; cbn. destruct side; [reflexivity|].
      now rewrite andb_false_r.
    + exact Hl.
Qed.

(** The opponent is due only when the guard of [resolveTurn] lets it in. *)
Lemma due_not_rejected (s : App) :
  Inv s -> Healthy s -> opponentDue s = true -> rejected Opponent s = false.
Proof.
  intros HI HH Hd. unfold opponentDue in Hd.
  destruct (turn (battle s)); [discriminate|].
  apply andb_true_iff in Hd. destruct Hd as [Hv Hr].
  apply negb_true_iff in Hv, Hr.
  apply rejected_false_iff. rewrite (inv_sync s HI).
  assert (Hv' : victor (battle s) = None)
    by (destruct (victor (battle s)); [discriminate | reflexivity]).
  repeat split; try assumption.
  exact (proj2 (hl_alive s HH Hv')).
Qed.

Lemma Healthy_opponentTimeout (rnd : Q) (s s' : App) :
  Inv s -> Healthy s -> opponentTimer s = true ->
  opponentTimeout rnd s = Some s' -> Healthy s'.
Proof.
  intros HI HH Hpend H.
  assert (Hacc : rejected Opponent (clearOpponentTimer s) = false).
  { change (rejected Opponent (clearOpponentTimer s))
      with (rejected Opponent s).
    apply due_not_rejected; try assumption.
    now rewrite <- (hl_timer s HH). }
  unfold opponentTimeout in H. rewrite Hacc in H.
  destruct (chooseMove rnd (opponent (battleRef s))) as [move|];
    [|discriminate].
  injection H as <-. rewrite resolveTurn_accepted by exact Hacc.
  destruct HH as [Hp Ho Ha Hv Hb Ht Hl].
  constructor; cbn [clearOpponentTimer battle battleLog isResolving timers
                    opponentTimer with_turn player opponent victor].
  - exact Hp.
  - exact Ho.
  - exact Ha.
  - exact Hv.
  - intros _. apply app_not_nil.
  - unfold opponentDue; cbn. now rewrite andb_false_r.
  - exact Hl.
Qed.

Lemma Healthy_trailingTimeout (i : nat) (s : App) :
  Healthy s -> Healthy (trailingTimeout (dropTimer i s)).
Proof.
  intros [Hp Ho Ha Hv Hb Ht Hl].
  constructor; cbn [trailingTimeout opponentEffect dropTimer battle battleLog
                    isResolving timers opponentTimer]; try assumption.
  - discriminate.
  - reflexivity.
Qed.

Lemma turnMessages_not_nil (attacker defender : BattlePokemon) (move : Move)
  (r : DamageResult) (nextHp : Z) :
  turnMessages attacker defender move r nextHp <> [].
Proof.
  unfold turnMessages.
  destruct (append_nonempty (name attacker) (" used " ++ move_name move ++ "!"))
    as [c [rest E]]; [discriminate|].
  rewrite E. discriminate.
Qed.

Lemma Healthy_resolveTimeout (i : nat) (side : Side) (move : Move)
  (rndVar rndCrit : Q) (s : App) :
  Inv s -> Healthy s ->
  Healthy (resolveTimeout side move rndVar rndCrit (dropTimer i s)).
Proof.
  intros HI HH.
  pose proof (inv_sync s HI) as Hsync.
  destruct (Z_le_gt_dec (hp (getSide (battleRef (dropTimer i s)) side)) 0)
    as [Hdead|Hlive].
  { rewrite resolveTimeout_aborted by now left.
    now apply Healthy_trailingTimeout. }
  destruct (victor (battleRef (dropTimer i s))) as [v|] eqn:Ev.
  { rewrite resolveTimeout_aborted by (right; congruence).
    now apply Healthy_trailingTimeout. }
  rewrite resolveTimeout_applied by (lia || exact Ev).
  cbn [battleRef dropTimer] in *. rewrite Hsync in *.
  destruct HH as [Hp Ho Ha Hv Hb Ht Hl].
  pose proof (inv_player s HI) as Tp. pose proof (inv_opponent s HI) as To.
  assert (Mp : maxHp (player (battle s)) = 260) by now rewrite Tp.
  assert (Mo : maxHp (opponent (battle s)) = 270) by now rewrite To.
  destruct (Ha Ev) as [Ap Ao].
  set (d := getSide (battle s) (defenderSideOf side)).
  set (r := calculateDamage rndVar rndCrit move d).
  assert (Hn : 0 <= nextHpOf d r <= maxHp d).
  { unfold nextHpOf. apply clamp_bounds. subst d. destruct side; cbn; lia. }
  constructor;
    cbn [opponentEffect battle battleLog isResolving timers opponentTimer
         dropTimer].
  - unfold applyDamage. fold d.
    destruct side, (nextHpOf d r <=? 0); cbn; subst d; cbn in *; lia.
  - unfold applyDamage. fold d.
    destruct side, (nextHpOf d r <=? 0); cbn; subst d; cbn in *; lia.
  - rewrite victor_applyDamage.
    destruct (Z.leb_spec (nextHpOf d r) 0) as [Hz|Hz]; [discriminate|].
    intros _. unfold applyDamage. fold d.
    destruct (Z.leb_spec (nextHpOf d r) 0); [lia|].
    destruct side; cbn; subst d; cbn in *; lia.
  - intros v. rewrite victor_applyDamage.
    destruct (Z.leb_spec (nextHpOf d r) 0) as [Hz|Hz].
    + intro E. injection E as <-.
      rewrite getSide_applyDamage_attacker, getSide_applyDamage_defender.
      fold d. cbn [hp with_hp]. split; [lia | lia].
    + rewrite Ev. discriminate.
  - intros _. apply app_not_nil.
  - reflexivity.
  - intro E.
    apply (turnMessages_not_nil (getSide (battle s) side) d move r
             (nextHpOf d r)).
    destruct (turnMessages (getSide (battle s) side) d move r (nextHpOf d r));
      [reflexivity | discriminate E].
Qed.

Lemma Healthy_handle (e : Event) (s s' : App) :
  Inv s -> Healthy s -> handle e s = Some s' -> Healthy s'.
Proof.
  intros HI HH H. destruct e as [side move| |i rv rc|i|rnd]; cbn in H.
  - injection H as <-. now apply Healthy_resolveTurn.
  - injection H as <-. apply Healthy_resetBattle, (hl_busy s HH).
  - destruct (nth_error (timers s) i) as [[side move|]|]; try discriminate.
    destruct (isDraw rv && isDraw rc); [|discriminate].
    injection H as <-. now apply Healthy_resolveTimeout.
  - destruct (nth_error (timers s) i) as [[side move|]|]; try discriminate.
    injection H as <-. now apply Healthy_trailingTimeout.
  - destruct (opponentTimer s) eqn:Et; [|discriminate].
    destruct (isDraw rnd); [|discriminate].
    now apply (Healthy_opponentTimeout rnd s).
Qed.

Lemma reachable_Healthy (s : App) : reachable s -> Healthy s.
Proof.
  induction 1 as [|s s' e Hr IH H]; [exact Healthy_initial|].
  exact (Healthy_handle e s s' (reachable_Inv s Hr) IH H).
Qed.

Lemma reachable_maxHp (s : App) :
  reachable s ->
  maxHp (player (battle s)) = 260 /\ maxHp (opponent (battle s)) = 270.
Proof.
  intro Hr. pose proof (reachable_Inv s Hr) as HI.
  rewrite (inv_player s HI), (inv_opponent s HI). split; reflexivity.
Qed.

(** In every reachable state the health of each combatant lies between 0
    and its maxHp, which is the one of its template (260 and 270). *)
Theorem health_within_bounds :
  forall s : App,
    reachable s ->
    0 <= hp (player (battle s)) <= maxHp (player (battle s)) /\
    maxHp (player (battle s)) = 260 /\
    0 <= hp (opponent (battle s)) <= maxHp (opponent (battle s)) /\
    maxHp (opponent (battle s)) = 270.
Proof.
  intros s Hr.
  pose proof (reachable_Healthy s Hr) as HH.
  destruct (reachable_maxHp s Hr) as [Mp Mo].
  rewrite Mp, Mo.
  repeat split; try apply (hl_player s HH); apply (hl_opponent s HH).
Qed.

Lemma health_within_bounds_witness :
  0 <= hp (opponent (battle opponentsTurnApp)) <= 270.
Proof.
  destruct (health_within_bounds opponentsTurnApp opponentsTurnApp_reachable)
    as [_ [_ [H M]]].
  rewrite M in H. exact H.
Defined.

(** In every reachable state no victor is set exactly when both combatants
    have health left; a side is the victor exactly when the other side has
    health 0, and the victor itself has health left: the two combatants are
    never both at 0. *)
Theorem victor_iff_fainted :
  forall s : App,
    reachable s ->
    (victor (battle s) = None <->
     0 < hp (player (battle s)) /\ 0 < hp (opponent (battle s))) /\
    (forall v : Side,
        victor (battle s) = Some v <->
        hp (getSide (battle s) (defenderSideOf v)) = 0) /\
    (forall v : Side,
        victor (battle s) = Some v -> 0 < hp (getSide (battle s) v)).
Proof.
  intros s Hr. pose proof (reachable_Healthy s Hr) as HH.
  pose proof (hl_alive s HH) as Ha. pose proof (hl_victor s HH) as Hv.
  split; [|split].
  - split; [exact Ha|].
    intros [Hp Ho]. destruct (victor (battle s)) as [v|]; [|reflexivity].
    destruct (Hv v eq_refl) as [_ H0]. destruct v; cbn in H0; lia.
  - intro v. split.
    + intro E. exact (proj2 (Hv v E)).
    + intro H0. destruct (victor (battle s)) as [w|].
      * destruct (Hv w eq_refl) as [Hw _].
        destruct v, w; cbn in *; try reflexivity; lia.
      * destruct (Ha eq_refl). destruct v; cbn in H0; lia.
  - intros v E. exact (proj1 (Hv v E)).
Qed.

Lemma victor_iff_fainted_witness :
  victor (battle opponentsTurnApp) = None <->
  0 < hp (player (battle opponentsTurnApp)) /\
  0 < hp (opponent (battle opponentsTurnApp)).
Proof.
  exact (proj1 (victor_iff_fainted opponentsTurnApp
                  opponentsTurnApp_reachable)).
Defined.

(** Once a victor is set, nothing but a reset changes the BattleState or the
    Battle Log: submissions are rejected, the timeouts that are still pending
    give up at their own check, and the timeout of the opponent is not
    pending. *)
Theorem concluded_is_frozen :
  forall (s s' : App) (e : Event),
    reachable s ->
    victor (battle s) <> None ->
    isReset e = false ->
    handle e s = Some s' ->
    battle s' = battle s /\ battleLog s' = battleLog s /\
    opponentTimer s = false.
Proof.
  intros s s' e Hr Hv He H.
  pose proof (reachable_Inv s Hr) as HI.
  pose proof (reachable_Healthy s Hr) as HH.
  pose proof (inv_sync s HI) as Hsync.
  assert (Hnot : opponentTimer s = false).
  { rewrite (hl_timer s HH). unfold opponentDue.
    destruct (turn (battle s)); [reflexivity|].
    destruct (victor (battle s)); [reflexivity | now elim Hv]. }
  assert (Hrej : forall side, rejected side s = true).
  { intro side. apply rejected_true_iff. left. now rewrite Hsync. }
  destruct e as [side move| |i rv rc|i|rnd]; cbn in H; try discriminate.
  - rewrite resolveTurn_rejected in H by apply Hrej.
    injection H as <-. auto.
  - destruct (nth_error (timers s) i) as [[side move|]|]; try discriminate.
    destruct (isDraw rv && isDraw rc); [|discriminate].
    injection H as <-.
    rewrite resolveTimeout_aborted; [auto|].
    right. cbn [battleRef dropTimer]. now rewrite Hsync.
  - destruct (nth_error (timers s) i) as [[side move|]|]; try discriminate.
    injection H as <-. auto.
  - rewrite Hnot in H. discriminate.
Qed.

Lemma knockedOutApp_reachable : reachable knockedOutApp.
Proof.
  apply (run_reachable knockoutRun INITIAL_APP);
    [exact reachable_init | vm_compute; reflexivity].
Qed.

Lemma concluded_is_frozen_witness :
  victor (battle knockedOutApp) = Some Player /\
  battle (resolveTurn Opponent IonCrash knockedOutApp) = battle knockedOutApp.
Proof.
  split; [reflexivity|].
  apply (concluded_is_frozen knockedOutApp
           (resolveTurn Opponent IonCrash knockedOutApp)
           (SubmitMove Opponent IonCrash) knockedOutApp_reachable).
  - discriminate.
  - reflexivity.
  - reflexivity.
Defined.

(** ** Hits *)

(** In a reachable state with no victor, every pending resolution lands
    when its timeout runs, whenever it was submitted: the defender loses the
    resolved damage, between 12 and 90, or all its health when it has less,
    so its health goes down; the attacker keeps its health. *)
Theorem pending_resolution_lands :
  forall (s s' : App) (i : nat) (side : Side) (move : Move)
         (rndVar rndCrit : Q),
    reachable s ->
    victor (battle s) = None ->
    nth_error (timers s) i = Some (ResolveTimer side move) ->
    handle (ResolveTimeout i rndVar rndCrit) s = Some s' ->
    let defender := getSide (battle s) (defenderSideOf side) in
    let d := damage (calculateDamage rndVar rndCrit move defender) in
    12 <= d <= 90 /\
    hp (getSide (battle s') (defenderSideOf side)) = Z.max 0 (hp defender - d) /\
    hp (getSide (battle s') (defenderSideOf side)) < hp defender /\
    hp (getSide (battle s') side) = hp (getSide (battle s) side).
Proof.
  intros s s' i side move rndVar rndCrit Hr Hv Hn H. cbn zeta.
  pose proof (reachable_Inv s Hr) as HI.
  pose proof (reachable_Healthy s Hr) as HH.
  pose proof (inv_sync s HI) as Hsync.
  destruct (hl_alive s HH Hv) as [Ap Ao].
  pose proof (hl_player s HH) as Bp. pose proof (hl_opponent s HH) as Bo.
  destruct (reachable_maxHp s Hr) as [Mp Mo].
  cbn [handle] in H. rewrite Hn in H.
  destruct (isDraw rndVar && isDraw rndCrit); [|discriminate].
  injection H as <-.
  rewrite resolveTimeout_applied;
    cbn [battleRef dropTimer]; rewrite Hsync;
    [| destruct side; assumption | exact Hv ].
  cbn [opponentEffect battle].
  rewrite getSide_applyDamage_defender, getSide_applyDamage_attacker.
  cbn [hp with_hp].
  set (defender := getSide (battle s) (defenderSideOf side)).
  assert (Hd : 12 <= damage (calculateDamage rndVar rndCrit move defender) <= 90).
  { unfold calculateDamage; cbn [damage]. apply clamp_bounds. lia. }
  assert (Hb : 0 < hp defender <= maxHp defender).
  { subst defender. destruct side; cbn; lia. }
  unfold nextHpOf, clamp. repeat split; lia.
Qed.

Lemma pending_resolution_lands_witness :
  let s := resolveTurn Player FlareCascade INITIAL_APP in
  let s' := resolveTimeout Player FlareCascade 0 (1#2) (dropTimer 0 s) in
  handle (ResolveTimeout 0 0 (1#2)) s = Some s' /\
  hp (opponent (battle s')) < hp (opponent (battle s)).
Proof.
  cbn zeta. split; [reflexivity|].
  destruct (pending_resolution_lands
              (resolveTurn Player FlareCascade INITIAL_APP)
              (resolveTimeout Player FlareCascade 0 (1#2)
                 (dropTimer 0 (resolveTurn Player FlareCascade INITIAL_APP)))
              0%nat Player FlareCascade 0 (1#2))
    as [_ [_ [H _]]].
  - apply (reachable_step INITIAL_APP _ (SubmitMove Player FlareCascade));
      [exact reachable_init | reflexivity].
  - reflexivity.
  - reflexivity.
  - reflexivity.
  - exact H.
Defined.

(** No event but a reset raises the health of a combatant: no move heals. *)
Theorem no_event_heals :
  forall (s s' : App) (e : Event),
    reachable s ->
    isReset e = false ->
    handle e s = Some s' ->
    hp (player (battle s')) <= hp (player (battle s)) /\
    hp (opponent (battle s')) <= hp (opponent (battle s)).
Proof.
  intros s s' e Hr He H.
  assert (Hsame : battle s' = battle s \/
                  (exists side, battle s' = with_turn (battle s) side) ->
                  hp (player (battle s')) <= hp (player (battle s)) /\
                  hp (opponent (battle s')) <= hp (opponent (battle s))).
  { intros [E|[side E]]; rewrite E; cbn; lia. }
  destruct e as [side move| |i rv rc|i|rnd]; try discriminate.
  - cbn in H. injection H as <-. apply Hsame. unfold resolveTurn.
    destruct (rejected side s); [now left | right; now exists side].
  - cbn in H.
    destruct (nth_error (timers s) i) as [[side move|]|]; try discriminate.
    destruct (isDraw rv && isDraw rc); [|discriminate].
    injection H as <-. unfold resolveTimeout.
    destruct ((hp (getSide (battleRef (dropTimer i s)) side) <=? 0)
              || isSome (victor (battleRef (dropTimer i s))));
      [cbn; lia|].
    cbn [opponentEffect battle battleRef dropTimer].
    rewrite (inv_sync s (reachable_Inv s Hr)).
    pose proof (reachable_Healthy s Hr) as HH.
    pose proof (hl_player s HH) as Bp. pose proof (hl_opponent s HH) as Bo.
    set (d := getSide (battle s) (defenderSideOf side)).
    assert (Hd : 12 <= damage (calculateDamage rv rc move d) <= 90).
    { unfold calculateDamage; cbn [damage]. apply clamp_bounds. lia. }
    assert (Hn : 0 <= hp d ->
                 clamp (hp d - damage (calculateDamage rv rc move d)) 0 (maxHp d)
                 <= hp d) by (unfold clamp; lia).
    unfold applyDamage. fold d.
    destruct side,
      (clamp (hp d - damage (calculateDamage rv rc move d)) 0 (maxHp d) <=? 0);
      subst d; cbn in *; lia.
  - cbn in H.
    destruct (nth_error (timers s) i) as [[side move|]|]; try discriminate.
    injection H as <-. apply Hsame. now left.
  - cbn in H. destruct (opponentTimer s && isDraw rnd); [|discriminate].
    unfold opponentTimeout in H.
    destruct (chooseMove rnd (opponent (battleRef s))) as [move|].
    + injection H as <-. apply Hsame. unfold resolveTurn.
      destruct (rejected Opponent (clearOpponentTimer s));
        [now left | right; now exists Opponent].
    + destruct (rejected Opponent (clearOpponentTimer s)); [|discriminate].
      injection H as <-. apply Hsame. now left.
Qed.

Lemma no_event_heals_witness :
  hp (opponent (battle (resolveTurn Opponent FrostboundWake opponentsTurnApp)))
  <= hp (opponent (battle opponentsTurnApp)).
Proof.
  apply (no_event_heals opponentsTurnApp
           (resolveTurn Opponent FrostboundWake opponentsTurnApp)
           (SubmitMove Opponent FrostboundWake) opponentsTurnApp_reachable);
    reflexivity.
Defined.

(** ** One resolution in flight *)

Lemma singleFlight_handle (e : Event) (s s' : App) :
  isReset e = false -> singleFlight s -> handle e s = Some s' ->
  singleFlight s'.
Proof.
  intros He Hs H.
  destruct e as [side move| |i rv rc|i|rnd]; try discriminate; cbn in H.
  - injection H as <-. destruct (rejected side s) eqn:Hrej.
    + now rewrite resolveTurn_rejected.
    + rewrite resolveTurn_accepted by exact Hrej.
      apply rejected_false_iff in Hrej. destruct Hrej as [_ [Hr _]].
      destruct Hs as [[_ Ht]|[Hr' _]]; [|congruence].
      right. cbn. rewrite Ht. split; [reflexivity | now eexists].
  - destruct Hs as [[_ Ht]|[Hr [t Ht]]].
    { rewrite Ht in H. destruct i; discriminate. }
    rewrite Ht in H. destruct i as [|i]; [|destruct i; discriminate].
    cbn in H. destruct t as [side move|]; [|discriminate].
    destruct (isDraw rv && isDraw rc); [|discriminate].
    injection H as <-. unfold resolveTimeout.
    destruct ((hp (getSide (battleRef (dropTimer 0 s)) side) <=? 0)
              || isSome (victor (battleRef (dropTimer 0 s)))).
    + left. cbn. now rewrite Ht.
    + right. cbn. rewrite Ht. split; [exact Hr | now eexists].
  - destruct Hs as [[_ Ht]|[Hr [t Ht]]].
    { rewrite Ht in H. destruct i; discriminate. }
    rewrite Ht in H. destruct i as [|i]; [|destruct i; discriminate].
    cbn in H. destruct t as [side move|]; [discriminate|].
    injection H as <-. left. cbn. now rewrite Ht.
  - destruct (opponentTimer s && isDraw rnd); [|discriminate].
    unfold opponentTimeout in H.
    change (rejected Opponent (clearOpponentTimer s))
      with (rejected Opponent s) in H.
    destruct (rejected Opponent s) eqn:Hrej.
    + destruct (chooseMove rnd (opponent (battleRef s))) as [move|];
        injection H as <-; [|exact Hs].
      rewrite resolveTurn_rejected by exact Hrej. exact Hs.
    + destruct (chooseMove rnd (opponent (battleRef s))) as [move|];
        [|discriminate].
      injection H as <-. rewrite resolveTurn_accepted by exact Hrej.
      apply rejected_false_iff in Hrej. destruct Hrej as [_ [Hr _]].
      destruct Hs as [[_ Ht]|[Hr' _]]; [|congruence].
      right. cbn. rewrite Ht. split; [reflexivity | now eexists].
Qed.

Lemma singleFlight_run (es : list Event) (s s' : App) :
  resetFree es = true -> singleFlight s -> run es s = Some s' ->
  singleFlight s'.
Proof.
  revert s. induction es as [|e es IH]; intros s Hf Hs H; cbn in H.
  - now injection H as <-.
  - cbn in Hf. apply andb_true_iff in Hf. destruct Hf as [He Hf].
    apply negb_true_iff in He.
    destruct (handle e s) as [s1|] eqn:E; [|discriminate].
    exact (IH s1 Hf (singleFlight_handle e s s1 He Hs E) H).
Qed.

(** As long as the battle is not reset, at most one resolution is in flight:
    at the end of every run without a reset either no timeout of
    [resolveTurn] is pending and the busy flag is clear, or exactly one is
    pending and the flag is set. *)
Theorem single_flight_without_reset :
  forall (es : list Event) (s : App),
    resetFree es = true ->
    run es INITIAL_APP = Some s ->
    singleFlight s.
Proof.
  intros es s Hf H. apply (singleFlight_run es INITIAL_APP s Hf); [|exact H].
  left. split; reflexivity.
Qed.

Lemma single_flight_without_reset_witness :
  singleFlight (resolveTurn Player FlareCascade INITIAL_APP).
Proof.
  apply (single_flight_without_reset [ SubmitMove Player FlareCascade ]);
    reflexivity.
Defined.

(** With a reset the guarantee is lost: after a submission, a reset and a
    second submission, two resolutions are in flight. *)
Lemma two_in_flight_after_reset :
  exists s : App,
    run [ SubmitMove Player FlareCascade; ResetBattle;
          SubmitMove Player SolarBloom ] INITIAL_APP = Some s /\
    timers s = [ ResolveTimer Player FlareCascade;
                 ResolveTimer Player SolarBloom ].
Proof. eexists. split; reflexivity. Qed.

(** While a resolution is in flight in a run without a reset, only its own
    timeout can change the state: a submission is ignored, the timeout of the
    opponent is not pending, and no other timeout exists. *)
Theorem in_flight_only_own_timeout :
  forall (es : list Event) (s s' : App) (e : Event),
    resetFree es = true ->
    run es INITIAL_APP = Some s ->
    isResolving s = true ->
    isReset e = false ->
    handle e s = Some s' ->
    s' = s \/
    (exists rndVar rndCrit, e = ResolveTimeout 0 rndVar rndCrit) \/
    e = TrailingTimeout 0.
Proof.
  intros es s s' e Hf Hrun Hbusy He H.
  assert (Hs : singleFlight s).
  { apply (singleFlight_run es INITIAL_APP s Hf); [|exact Hrun].
    left. split; reflexivity. }
  pose proof (reachable_Healthy s
                (run_reachable es INITIAL_APP s reachable_init Hrun)) as HH.
  destruct Hs as [[Hr _]|[_ [t Ht]]]; [congruence|].
  destruct e as [side move| |i rv rc|i|rnd]; try discriminate; cbn in H.
  - left. injection H as <-. apply resolveTurn_rejected.
    apply rejected_true_iff. auto.
  - right. left. rewrite Ht in H.
    destruct i as [|i]; [now exists rv, rc | destruct i; discriminate].
  - right. right. rewrite Ht in H.
    destruct i as [|i]; [reflexivity | destruct i; discriminate].
  - rewrite (hl_timer s HH) in H. unfold opponentDue in H.
    rewrite Hbusy, andb_false_r in H.
    destruct (turn (battle s)); discriminate.
Qed.

Lemma in_flight_only_own_timeout_witness :
  let s := resolveTurn Player FlareCascade INITIAL_APP in
  resolveTurn Player SolarBloom s = s \/
  (exists rndVar rndCrit,
      SubmitMove Player SolarBloom = ResolveTimeout 0 rndVar rndCrit) \/
  SubmitMove Player SolarBloom = TrailingTimeout 0.
Proof.
  apply (in_flight_only_own_timeout [ SubmitMove Player FlareCascade ]
           (resolveTurn Player FlareCascade INITIAL_APP)
           (resolveTurn Player SolarBloom
              (resolveTurn Player FlareCascade INITIAL_APP))
           (SubmitMove Player SolarBloom)); reflexivity.
Defined.

(** ** The battle never stalls *)

(** In every reachable state something is set to go on: when the busy flag
    is set a timeout of [resolveTurn] is pending (the flag never sticks);
    when it is clear and no victor is set, either it is the turn of the
    opponent and its timeout is pending, or it is the turn of the player and
    the move buttons are enabled.  The timeout of the opponent is pending
    exactly when its guard holds. *)
Theorem battle_never_stalls :
  forall s : App,
    reachable s ->
    (isResolving s = true -> exists t, nth_error (timers s) 0 = Some t) /\
    (isResolving s = false -> victor (battle s) = None ->
     turn (battle s) = Opponent -> opponentTimer s = true) /\
    (isResolving s = false -> victor (battle s) = None ->
     turn (battle s) = Player -> playerDisabled s = false) /\
    opponentTimer s = opponentDue s.
Proof.
  intros s Hr. pose proof (reachable_Healthy s Hr) as HH.
  repeat split.
  - intro Hb. pose proof (hl_busy s HH Hb) as Hne.
    destruct (timers s) as [|t l]; [now elim Hne | now exists t].
  - intros Hb Hv Ht. rewrite (hl_timer s HH). unfold opponentDue.
    now rewrite Ht, Hv, Hb.
  - intros Hb Hv Ht. unfold playerDisabled. now rewrite Ht, Hv, Hb.
  - exact (hl_timer s HH).
Qed.

Lemma battle_never_stalls_witness :
  opponentTimer opponentsTurnApp = true.
Proof.
  apply (battle_never_stalls opponentsTurnApp opponentsTurnApp_reachable);
    reflexivity.
Defined.

(** ** The callers of [resolveTurn] *)

Lemma with_turn_same (st : BattleState) : with_turn st (turn st) = st.
Proof. now destruct st. Qed.

(** A click on an enabled move button is never turned down by the guard of
    [resolveTurn]: in a reachable state where the buttons are enabled, it is
    the turn of the player, and the click on the button of a move sets the
    busy flag and schedules the resolution of that move, leaving the
    BattleState and the Battle Log as they are. *)
Theorem enabled_click_is_accepted :
  forall (s : App) (index : nat) (move : Move),
    reachable s ->
    playerDisabled s = false ->
    nth_error (moves (player (battle s))) index = Some move ->
    turn (battle s) = Player /\
    clickMove index s = resolveTurn Player move s /\
    isResolving (clickMove index s) = true /\
    timers (clickMove index s) = (timers s ++ [ResolveTimer Player move])%list /\
    battle (clickMove index s) = battle s /\
    battleLog (clickMove index s) = battleLog s /\
    In move (moves PLAYER_TEAM).
Proof.
  intros s index move Hr Hen Hn.
  pose proof (reachable_Inv s Hr) as HI.
  pose proof (reachable_Healthy s Hr) as HH.
  unfold clickMove. rewrite Hen, Hn.
  unfold playerDisabled in Hen.
  destruct (turn (battle s)) eqn:Et; [|discriminate].
  apply orb_false_iff in Hen. destruct Hen as [Hv Hb].
  assert (Hv' : victor (battle s) = None)
    by (destruct (victor (battle s)); [discriminate | reflexivity]).
  assert (Hacc : rejected Player s = false).
  { apply rejected_false_iff. rewrite (inv_sync s HI).
    repeat split; try assumption. exact (proj1 (hl_alive s HH Hv')). }
  rewrite resolveTurn_accepted by exact Hacc.
  cbn [battle isResolving timers battleLog].
  repeat split.
  - rewrite <- Et. apply with_turn_same.
  - apply nth_error_In in Hn. rewrite (inv_player s HI) in Hn. exact Hn.
Qed.

Lemma enabled_click_is_accepted_witness :
  isResolving (clickMove 1 INITIAL_APP) = true /\
  timers (clickMove 1 INITIAL_APP) = [ResolveTimer Player SolarBloom].
Proof.
  destruct (enabled_click_is_accepted INITIAL_APP 1 SolarBloom)
    as [_ [_ [Hb [Ht _]]]];
    [exact reachable_init | reflexivity | reflexivity |].
  split; [exact Hb | exact Ht].
Defined.

(** A click changes nothing when the buttons are disabled or when there is
    no button at the index. *)
Lemma clickMove_ignored (s : App) (index : nat) :
  playerDisabled s = true \/
  (List.length (moves (player (battle s))) <= index)%nat ->
  clickMove index s = s.
Proof.
  intros [H|H]; unfold clickMove.
  - now rewrite H.
  - apply nth_error_None in H. rewrite H. now destruct (playerDisabled s).
Qed.

(** The timeout of the opponent, when it is pending in a reachable state,
    never fails and is never turned down: for every draw it submits a move
    of the opponent, which sets the busy flag and schedules the resolution,
    leaving the BattleState and the Battle Log as they are. *)
Theorem opponent_timeout_is_accepted :
  forall (s : App) (rnd : Q),
    reachable s ->
    opponentTimer s = true ->
    (0 <= rnd < 1)%Q ->
    exists (move : Move) (s' : App),
      handle (OpponentTimeout rnd) s = Some s' /\
      In move (moves OPPONENT_TEAM) /\
      isResolving s' = true /\
      timers s' = (timers s ++ [ResolveTimer Opponent move])%list /\
      opponentTimer s' = false /\
      battle s' = battle s /\
      battleLog s' = battleLog s.
Proof.
  intros s rnd Hr Hp Hd.
  pose proof (reachable_Inv s Hr) as HI.
  pose proof (reachable_Healthy s Hr) as HH.
  assert (Hdue : opponentDue s = true) by now rewrite <- (hl_timer s HH).
  pose proof (due_not_rejected s HI HH Hdue) as Hacc.
  assert (Hmv : moves (opponent (battleRef s)) <> []).
  { rewrite (inv_sync s HI), (inv_opponent s HI). discriminate. }
  destruct (chooseMove_member rnd (opponent (battleRef s)) Hd Hmv)
    as [move [Hc [_ Hin]]].
  exists move. eexists. split.
  - cbn [handle]. rewrite Hp. apply isDraw_iff in Hd. rewrite Hd. cbn [andb].
    unfold opponentTimeout. rewrite Hc. reflexivity.
  - rewrite resolveTurn_accepted by exact Hacc.
    cbn [battle isResolving timers battleLog opponentTimer clearOpponentTimer].
    repeat split.
    + rewrite (inv_sync s HI), (inv_opponent s HI) in Hin. exact Hin.
    + unfold opponentDue in Hdue.
      destruct (turn (battle s)) eqn:Et; [discriminate|].
      rewrite <- Et. apply with_turn_same.
Qed.

Lemma opponent_timeout_is_accepted_witness :
  exists (move : Move) (s' : App),
    handle (OpponentTimeout (1#2)) opponentsTurnApp = Some s' /\
    isResolving s' = true.
Proof.
  destruct (opponent_timeout_is_accepted opponentsTurnApp (1#2))
    as [move [s' [H [_ [Hb _]]]]];
    [exact opponentsTurnApp_reachable | reflexivity
    | split; [discriminate | reflexivity] |].
  exists move, s'. split; [exact H | exact Hb].
Defined.

(** In any state, the callback of the timeout of the opponent fails exactly
    when the opponent has no move and the guard of [resolveTurn] lets the
    call in: the undefined move is rejected silently when the guard holds,
    and raises otherwise. *)
Theorem opponentTimeout_fails_iff :
  forall (s : App) (rnd : Q),
    (0 <= rnd < 1)%Q ->
    (opponentTimeout rnd s = None <->
     moves (opponent (battleRef s)) = [] /\ rejected Opponent s = false).
Proof.
  intros s rnd Hd. unfold opponentTimeout.
  change (rejected Opponent (clearOpponentTimer s))
    with (rejected Opponent s).
  destruct (moves (opponent (battleRef s))) as [|m l] eqn:Em.
  - assert (Hc : chooseMove rnd (opponent (battleRef s)) = None).
    { unfold chooseMove. rewrite Em.
      destruct (Qfloor (rnd * inject_Z (Z.of_nat (List.length (@nil Move))))
                <? 0); [reflexivity|].
      now destruct (Z.to_nat _). }
    rewrite Hc. destruct (rejected Opponent s); split;
      try discriminate; intuition congruence.
  - destruct (chooseMove_member rnd (opponent (battleRef s)) Hd)
      as [move [Hc _]]; [rewrite Em; discriminate|].
    rewrite Hc. split; [discriminate | intros [H _]; discriminate H].
Qed.

Lemma opponentTimeout_fails_iff_witness :
  opponentTimeout (1#2) opponentsTurnApp <> None.
Proof.
  intro H.
  apply (opponentTimeout_fails_iff opponentsTurnApp (1#2)) in H;
    [| split; [discriminate | reflexivity] ].
  destruct H as [H _]. discriminate H.
Defined.

(** ** The type chart and the damage *)

Lemma spec_multiplier_cases (attack typing : MoveType) :
  spec_multiplier attack typing = (1#2) \/
  spec_multiplier attack typing = 1%Q \/
  spec_multiplier attack typing = 2%Q.
Proof. destruct attack, typing; cbn; auto. Qed.

Lemma spec_product_pow2 (attack : MoveType) (tys : list MoveType) :
  exists k : Z,
    - Z.of_nat (List.length tys) <= k <= Z.of_nat (List.length tys) /\
    (spec_product attack tys == 2 ^ k)%Q.
Proof.
  induction tys as [|t rest [k [Hk E]]].
  - exists 0. split; [cbn; lia | reflexivity].
  - assert (H2 : ~ (2 == 0)%Q) by discriminate.
    cbn [spec_product].
    destruct (spec_multiplier_cases attack t) as [H|[H|H]]; rewrite H.
    + exists (-1 + k). split; [cbn [List.length]; lia|].
      rewrite E, Qpower_plus by exact H2. reflexivity.
    + exists k. split; [cbn [List.length]; lia|]. rewrite E. ring.
    + exists (1 + k). split; [cbn [List.length]; lia|].
      rewrite E, Qpower_plus by exact H2. reflexivity.
Qed.

Lemma multiplierOf_pos (attack : MoveType) (tys : list MoveType) :
  (0 < multiplierOf attack tys)%Q.
Proof.
  destruct (spec_product_pow2 attack tys) as [k [_ E]].
  rewrite multiplierOf_product, E. now apply Qpower_0_lt.
Qed.

Lemma pow2_ge_2 (k : Z) : 1 <= k -> (2 <= 2 ^ k)%Q.
Proof.
  intro H. change 2%Q with (2 ^ 1)%Q at 1.
  apply Qpower_le_compat_l; [exact H | discriminate].
Qed.

Lemma pow2_le_half (k : Z) : k <= -1 -> (2 ^ k <= 1#2)%Q.
Proof.
  intro H. change (1#2)%Q with (2 ^ (-1))%Q.
  apply Qpower_le_compat_l; [exact H | discriminate].
Qed.

(** The effectiveness against any list of defender types is a power of two,
    2^k with k between minus and plus the number of types, hence positive;
    and the effectiveness line tells its place: the super-effective line
    means at least 2, the not-very-effective line at most 1/2, and no line
    means exactly 1. *)
Theorem effectiveness_power_of_two :
  forall (attack : MoveType) (tys : list MoveType),
    let m := multiplierOf attack tys in
    (exists k : Z,
        - Z.of_nat (List.length tys) <= k <= Z.of_nat (List.length tys) /\
        (m == 2 ^ k)%Q) /\
    (0 < m)%Q /\
    ((effectMessage m = Some "It’s super effective!" /\ (2 <= m)%Q) \/
     (effectMessage m = None /\ (m == 1)%Q) \/
     (effectMessage m = Some "It’s not very effective…" /\ (m <= 1#2)%Q)).
Proof.
  intros attack tys. cbn zeta.
  destruct (spec_product_pow2 attack tys) as [k [Hk E]].
  rewrite <- multiplierOf_product in E.
  split; [now exists k|]. split.
  - apply multiplierOf_pos.
  - rewrite effectMessage_spec.
    destruct (Z.lt_trichotomy k 0) as [Hlt|[H0|Hgt]].
    + right. right.
      assert (Hh : (multiplierOf attack tys <= 1#2)%Q)
        by (rewrite E; apply pow2_le_half; lia).
      split; [|exact Hh].
      destruct (Qlt_le_dec (3#2) (multiplierOf attack tys)) as [H|H].
      * exfalso. apply (Qlt_not_le _ _ H).
        apply Qle_trans with (1#2)%Q; [exact Hh | discriminate].
      * destruct (Qlt_le_dec (multiplierOf attack tys) 1) as [H1|H1];
          [reflexivity|].
        exfalso. apply (Qle_not_lt _ _ H1).
        apply Qle_lt_trans with (1#2)%Q; [exact Hh | reflexivity].
    + right. left. subst k.
      assert (H1 : (multiplierOf attack tys == 1)%Q) by (rewrite E; reflexivity).
      split; [|exact H1].
      destruct (Qlt_le_dec (3#2) (multiplierOf attack tys)) as [H|H].
      * rewrite H1 in H. discriminate H.
      * destruct (Qlt_le_dec (multiplierOf attack tys) 1) as [H2|H2];
          [|reflexivity].
        rewrite H1 in H2. discriminate H2.
    + left.
      assert (Hh : (2 <= multiplierOf attack tys)%Q)
        by (rewrite E; apply pow2_ge_2; lia).
      split; [|exact Hh].
      destruct (Qlt_le_dec (3#2) (multiplierOf attack tys)) as [H|H];
        [reflexivity|].
      exfalso. apply (Qle_not_lt _ _ H).
      apply Qlt_le_trans with 2%Q; [reflexivity | exact Hh].
Qed.

Lemma Math_round_le (x y : Q) : (x <= y)%Q -> Math_round x <= Math_round y.
Proof.
  intro H. unfold Math_round. apply Qfloor_resp_le.
  now apply Qplus_le_l.
Qed.

Lemma clamp_le (a b lo hi : Z) : a <= b -> clamp a lo hi <= clamp b lo hi.
Proof. unfold clamp. lia. Qed.

(** For a move of non-negative power, a critical hit never deals less than
    a plain hit with the same variation draw, and the damage never goes down
    when the variation draw or the power goes up. *)
Theorem damage_is_monotone :
  forall (nm ds : string) (ty : MoveType) (acc pw1 pw2 : Z)
         (rv1 rv2 rc1 rc2 : Q) (defender : BattlePokemon),
    0 <= pw1 <= pw2 ->
    (0 <= rv1)%Q -> (rv1 <= rv2)%Q ->
    (critOf rc1 = true -> critOf rc2 = true) ->
    damage (calculateDamage rv1 rc1 (mkMove nm ty pw1 acc ds) defender)
    <= damage (calculateDamage rv2 rc2 (mkMove nm ty pw2 acc ds) defender).
Proof.
  intros nm ds ty acc pw1 pw2 rv1 rv2 rc1 rc2 defender Hpw H0 Hrv Hc.
  unfold calculateDamage; cbn [damage power move_type].
  apply clamp_le, Math_round_le.
  pose proof (multiplierOf_pos ty (types defender)) as Hm.
  assert (Hv1 : (0 <= variationOf rv1)%Q).
  { unfold variationOf.
    apply Qle_trans with (0 + 0 * (2#10))%Q; [discriminate|].
    apply Qplus_le_compat; [discriminate|].
    apply Qmult_le_compat_r; [exact H0 | discriminate]. }
  assert (Hv : (variationOf rv1 <= variationOf rv2)%Q).
  { unfold variationOf. apply Qplus_le_r.
    apply Qmult_le_compat_r; [exact Hrv | discriminate]. }
  assert (Hp1 : (0 <= inject_Z pw1)%Q)
    by (change 0%Q with (inject_Z 0); rewrite <- Zle_Qle; lia).
  assert (Hp : (inject_Z pw1 <= inject_Z pw2)%Q)
    by (rewrite <- Zle_Qle; lia).
  assert (Hk : (0 <= (if critOf rc1 then 3#2 else 1))%Q /\
               ((if critOf rc1 then 3#2 else 1)
                <= (if critOf rc2 then 3#2 else 1))%Q).
  { destruct (critOf rc1), (critOf rc2); split; try discriminate.
    specialize (Hc eq_refl). discriminate Hc. }
  destruct Hk as [Hk0 Hk].
  apply Qmult_le_compat_r; [|now apply Qlt_le_weak].
  apply Qle_trans
    with (inject_Z pw2 * variationOf rv2 * (if critOf rc1 then 3#2 else 1))%Q.
  - apply Qmult_le_compat_r; [|exact Hk0].
    apply Qle_trans with (inject_Z pw1 * variationOf rv2)%Q.
    + rewrite !(Qmult_comm (inject_Z pw1)).
      apply Qmult_le_compat_r; [exact Hv | exact Hp1].
    + apply Qmult_le_compat_r; [exact Hp|].
      apply Qle_trans with (variationOf rv1); assumption.
  - rewrite !(Qmult_comm (inject_Z pw2 * variationOf rv2)).
    apply Qmult_le_compat_r; [exact Hk|].
    apply Qmult_le_0_compat.
    + apply Qle_trans with (inject_Z pw1); assumption.
    + apply Qle_trans with (variationOf rv1); assumption.
Qed.

Lemma damage_is_monotone_witness :
  damage (calculateDamage 0 (1#2) FlareCascade OPPONENT_TEAM)
  <= damage (calculateDamage (1#2) 0 FlareCascade OPPONENT_TEAM).
Proof.
  apply (damage_is_monotone "Flare Cascade"
           "A cascading wave of golden flame that engulfs the arena."
           Fire 94 36 36 0 (1#2) (1#2) 0 OPPONENT_TEAM).
  - lia.
  - discriminate.
  - discriminate.
  - reflexivity.
Defined.

(** ** The health bar *)

Lemma ratio_le_iff (a b c : Z) :
  0 < c -> (inject_Z a / inject_Z c <= inject_Z b / inject_Z c)%Q <-> a <= b.
Proof.
  intro Hc.
  assert (Hpos : (0 < inject_Z c)%Q)
    by (change 0%Q with (inject_Z 0); now rewrite <- Zlt_Qlt).
  unfold Qdiv. split; intro H.
  - rewrite Zle_Qle.
    apply (Qmult_le_r _ _ (/ inject_Z c)); [now apply Qinv_lt_0_compat | exact H].
  - apply Qmult_le_compat_r; [now rewrite <- Zle_Qle|].
    apply Qlt_le_weak. now apply Qinv_lt_0_compat.
Qed.

Lemma ratio_zero (c : Z) : (inject_Z 0 / inject_Z c == 0)%Q.
Proof. unfold Qdiv. apply Qmult_0_l. Qed.

Lemma ratio_one (c : Z) : 0 < c -> (inject_Z c / inject_Z c == 1)%Q.
Proof.
  intro Hc. unfold Qdiv. apply Qmult_inv_r.
  intro E. unfold Qeq in E. cbn in E. lia.
Qed.

Lemma HealthBar_percent_range (current max : Z) :
  (0 <= HealthBar_percent current max <= 1)%Q.
Proof.
  unfold HealthBar_percent. split.
  - apply Q.le_max_l.
  - apply Q.max_lub; [discriminate | apply Q.le_min_l].
Qed.

Lemma HealthBar_percent_inside (current max : Z) :
  0 < max -> 0 <= current <= max ->
  (HealthBar_percent current max == inject_Z current / inject_Z max)%Q.
Proof.
  intros Hm [H0 H1]. unfold HealthBar_percent.
  assert (Hlo : (0 <= inject_Z current / inject_Z max)%Q).
  { rewrite <- (ratio_zero max). now apply ratio_le_iff. }
  assert (Hhi : (inject_Z current / inject_Z max <= 1)%Q).
  { rewrite <- (ratio_one max Hm). now apply ratio_le_iff. }
  rewrite (Q.min_r _ _ Hhi). now apply Q.max_r.
Qed.

(** For a positive [max]: the fill of the bar lies between 0 and 1, its
    width between 0 and 100 percent and its hue between 0 and 120; inside the
    range it is the plain ratio; at or below health 0 the bar is empty with
    hue 0, at or above [max] it is full with hue 120. *)
Theorem HealthBar_bounds :
  forall current max : Z,
    0 < max ->
    (0 <= HealthBar_percent current max <= 1)%Q /\
    (0 <= HealthBar_width current max <= 100)%Q /\
    0 <= HealthBar_hue current max <= 120 /\
    (0 <= current <= max ->
     (HealthBar_percent current max == inject_Z current / inject_Z max)%Q) /\
    (current <= 0 ->
     (HealthBar_percent current max == 0)%Q /\ HealthBar_hue current max = 0) /\
    (max <= current ->
     (HealthBar_percent current max == 1)%Q /\ HealthBar_hue current max = 120).
Proof.
  intros current max Hm.
  pose proof (HealthBar_percent_range current max) as [Hlo Hhi].
  split; [now split|]. split; [|split; [|split; [|split]]].
  - unfold HealthBar_width. split.
    + apply Qmult_le_0_compat; [exact Hlo | discriminate].
    + change 100%Q with (1 * 100)%Q.
      apply Qmult_le_compat_r; [exact Hhi | discriminate].
  - unfold HealthBar_hue. split.
    + change 0 with (Math_round 0). apply Math_round_le.
      apply Qmult_le_0_compat; [discriminate | exact Hlo].
    + change 120 with (Math_round (120 * 1)). apply Math_round_le.
      apply Qmult_le_l; [reflexivity | exact Hhi].
  - now apply HealthBar_percent_inside.
  - intro Hc.
    assert (E : (HealthBar_percent current max == 0)%Q).
    { unfold HealthBar_percent. apply Q.max_l.
      apply Qle_trans with (inject_Z current / inject_Z max)%Q;
        [apply Q.le_min_r|].
      rewrite <- (ratio_zero max). now apply ratio_le_iff. }
    split; [exact E|]. unfold HealthBar_hue. now rewrite E.
  - intro Hc.
    assert (E : (HealthBar_percent current max == 1)%Q).
    { unfold HealthBar_percent.
      assert (H1 : (1 <= inject_Z current / inject_Z max)%Q).
      { rewrite <- (ratio_one max Hm). now apply ratio_le_iff. }
      rewrite (Q.min_l _ _ H1). now apply Q.max_r. }
    split; [exact E|]. unfold HealthBar_hue. now rewrite E.
Qed.

Lemma HealthBar_bounds_witness :
  0 <= HealthBar_hue 255 270 <= 120.
Proof.
  apply (HealthBar_bounds 255 270). reflexivity.
Defined.

(** The bar follows the health: with more health the fill and the hue are
    not smaller. *)
Theorem HealthBar_monotone :
  forall c1 c2 max : Z,
    0 < max -> c1 <= c2 ->
    (HealthBar_percent c1 max <= HealthBar_percent c2 max)%Q /\
    HealthBar_hue c1 max <= HealthBar_hue c2 max.
Proof.
  intros c1 c2 max Hm Hc.
  assert (H : (HealthBar_percent c1 max <= HealthBar_percent c2 max)%Q).
  { unfold HealthBar_percent.
    apply Q.max_le_compat_l, Q.min_le_compat_l. now apply ratio_le_iff. }
  split; [exact H|].
  unfold HealthBar_hue. apply Math_round_le.
  apply Qmult_le_l; [reflexivity | exact H].
Qed.

Lemma HealthBar_monotone_witness :
  HealthBar_hue 16 260 <= HealthBar_hue 28 260.
Proof.
  apply (HealthBar_monotone 16 28 260); [reflexivity | discriminate].
Defined.

(** In every reachable state the bar of a combatant shows its health
    exactly: the fill is hp / maxHp with nothing cut off, the bar is empty
    only when the combatant has fainted and full only at full health. *)
Theorem HealthBar_shows_health :
  forall (s : App) (side : Side),
    reachable s ->
    let p := getSide (battle s) side in
    (HealthBar_percent (hp p) (maxHp p)
     == inject_Z (hp p) / inject_Z (maxHp p))%Q /\
    ((HealthBar_percent (hp p) (maxHp p) == 0)%Q <-> hp p = 0) /\
    ((HealthBar_percent (hp p) (maxHp p) == 1)%Q <-> hp p = maxHp p).
Proof.
  intros s side Hr. cbn zeta.
  pose proof (hl_player s (reachable_Healthy s Hr)) as Bp.
  pose proof (hl_opponent s (reachable_Healthy s Hr)) as Bo.
  destruct (reachable_maxHp s Hr) as [Mp Mo].
  set (p := getSide (battle s) side).
  assert (Hm : 0 < maxHp p) by (subst p; destruct side; cbn; lia).
  assert (Hb : 0 <= hp p <= maxHp p) by (subst p; destruct side; cbn; lia).
  pose proof (HealthBar_percent_inside (hp p) (maxHp p) Hm Hb) as E.
  split; [exact E|]. rewrite E. split.
  - rewrite <- (ratio_zero (maxHp p)). split; intro H.
    + apply Z.le_antisymm; [|lia].
      apply (ratio_le_iff _ _ (maxHp p) Hm). rewrite H. apply Qle_refl.
    + now rewrite H.
  - rewrite <- (ratio_one (maxHp p) Hm). split; intro H.
    + apply Z.le_antisymm; [lia|].
      apply (ratio_le_iff _ _ (maxHp p) Hm). rewrite H. apply Qle_refl.
    + now rewrite H.
Qed.

Lemma HealthBar_shows_health_witness :
  (HealthBar_percent 255 270 == 255 # 270)%Q.
Proof.
  destruct (HealthBar_shows_health opponentsTurnApp Opponent
              opponentsTurnApp_reachable) as [E _].
  exact E.
Defined.

(** ** Projectiles *)

Lemma append_inj_r (a x y : string) : a ++ x = a ++ y -> x = y.
Proof.
  induction a as [|c a IH]; cbn; intro H; [exact H|].
  injection H as H. now apply IH.
Qed.

Lemma lift_range (rnd : Q) :
  (0 <= rnd < 1)%Q -> (-20 <= (rnd - (1#2)) * 40 < 20)%Q.
Proof.
  intros [H0 H1]. split.
  - setoid_replace (-20)%Q with ((0 - (1#2)) * 40)%Q by ring.
    apply Qmult_le_compat_r; [|discriminate].
    now apply Qplus_le_l.
  - setoid_replace 20%Q with ((1 - (1#2)) * 40)%Q by ring.
    apply Qmult_lt_compat_r; [reflexivity|].
    now apply Qplus_lt_l.
Qed.

(** A cluster has four projectiles.  The one at [index] carries the bundle
    name, the side and the type of the call, the delay 90 * [index], a lift
    from -20 (included) to 20 (excluded), and the id
    [<bundle>-<index>]; the four ids are distinct. *)
Theorem bundleProjectiles_shape :
  forall (bundle : string) (draws : nat -> Q) (side : Side) (type : MoveType),
    (forall index : nat, (0 <= draws index < 1)%Q) ->
    let cluster := bundleProjectiles bundle draws side type in
    List.length cluster = 4%nat /\
    (forall (index : nat) (p : Projectile),
        nth_error cluster index = Some p ->
        proj_bundle p = bundle /\ proj_side p = side /\ proj_type p = type /\
        proj_delay p = 90 * Z.of_nat index /\
        (-20 <= proj_lift p < 20)%Q /\
        proj_id p = bundle ++ "-" ++ indexToString index) /\
    NoDup (map proj_id cluster).
Proof.
  intros bundle draws side type Hd. cbn zeta. split; [reflexivity|]. split.
  - intros index p H.
    do 4 (destruct index as [|index];
          [ injection H as <-; cbn;
            repeat split; try reflexivity; apply (lift_range _ (Hd _)) |]).
    destruct index; discriminate H.
  - cbn. repeat constructor; cbn;
      intro H; repeat (destruct H as [H|H]; [apply append_inj_r in H; discriminate H|]);
      exact H.
Qed.

Lemma bundleProjectiles_shape_witness :
  List.length (bundleProjectiles "k3x-9f" (fun _ => 1#4) Player Fire) = 4%nat.
Proof.
  apply (bundleProjectiles_shape "k3x-9f" (fun _ => 1#4) Player Fire).
  intros _. split; [discriminate | reflexivity].
Defined.

Lemma filter_keep_all {A : Type} (f : A -> bool) (l : list A) :
  Forall (fun x => f x = true) l -> filter f l = l.
Proof.
  induction 1 as [|x l Hx _ IH]; cbn; [reflexivity|]. now rewrite Hx, IH.
Qed.

Lemma filter_drop_all {A : Type} (f : A -> bool) (l : list A) :
  Forall (fun x => f x = false) l -> filter f l = [].
Proof.
  induction 1 as [|x l Hx _ IH]; cbn; [reflexivity|]. now rewrite Hx.
Qed.

Lemma cleanup_own (cluster prev others : list Projectile) (bundle : string) :
  cluster <> [] ->
  Forall (fun p => proj_bundle p = bundle) cluster ->
  Forall (fun p => proj_bundle p <> bundle) prev ->
  Forall (fun p => proj_bundle p <> bundle) others ->
  cleanup cluster (addCluster others (addCluster cluster prev))
  = addCluster others prev.
Proof.
  intros Hne Hc Hp Ho. unfold addCluster, cleanup.
  destruct cluster as [|first rest]; [now elim Hne|].
  assert (Hf : proj_bundle first = bundle) by now inversion Hc.
  rewrite Hf.
  set (keep := fun p : Projectile => negb (proj_bundle p =? bundle)%string).
  assert (Hkeep : forall l, Forall (fun p => proj_bundle p <> bundle) l ->
                            filter keep l = l).
  { intros l Hl. apply filter_keep_all.
    eapply Forall_impl; [|exact Hl].
    intros p Hpn. unfold keep. apply negb_true_iff.
    now apply String.eqb_neq. }
  assert (Hdrop : filter keep (first :: rest) = []).
  { apply filter_drop_all.
    eapply Forall_impl; [|exact Hc].
    intros p Hpe. unfold keep. apply negb_false_iff.
    now apply String.eqb_eq. }
  rewrite !filter_app, (Hkeep prev Hp), (Hkeep others Ho), Hdrop.
  now rewrite app_nil_r.
Qed.

(** Adding a cluster and cleaning it up gives the list back: when no other
    projectile carries the bundle name of the cluster, [cleanup] removes the
    four projectiles of the cluster and nothing else, also when other
    clusters were added in between. *)
Theorem cleanup_removes_own_cluster :
  forall (bundle : string) (draws : nat -> Q) (side : Side) (type : MoveType)
         (prev others : list Projectile),
    Forall (fun p => proj_bundle p <> bundle) prev ->
    Forall (fun p => proj_bundle p <> bundle) others ->
    let cluster := bundleProjectiles bundle draws side type in
    cleanup cluster (addCluster others (addCluster cluster prev))
    = addCluster others prev.
Proof.
  intros bundle draws side type prev others Hp Ho. cbn zeta.
  apply (cleanup_own _ prev others bundle); try assumption.
  - discriminate.
  - repeat constructor.
Qed.

Lemma cleanup_removes_own_cluster_witness :
  let c1 := bundleProjectiles "a" (fun _ => 0%Q) Player Fire in
  let c2 := bundleProjectiles "b" (fun _ => 0%Q) Opponent Ice in
  cleanup c1 (addCluster c2 (addCluster c1 [])) = addCluster c2 [].
Proof.
  cbn zeta.
  apply (cleanup_removes_own_cluster "a" (fun _ => 0%Q) Player Fire []
           (bundleProjectiles "b" (fun _ => 0%Q) Opponent Ice)).
  - constructor.
  - repeat constructor; discriminate.
Defined.

(** Two clusters that got the same bundle name go together: the cleanup of
    one removes the other too. *)
Lemma cleanup_same_bundle (bundle : string) (draws1 draws2 : nat -> Q)
  (side1 side2 : Side) (type1 type2 : MoveType) :
  cleanup (bundleProjectiles bundle draws1 side1 type1)
    (addCluster (bundleProjectiles bundle draws2 side2 type2)
       (addCluster (bundleProjectiles bundle draws1 side1 type1) []))
  = [].
Proof.
  unfold cleanup, addCluster. cbn. now rewrite String.eqb_refl.
Qed.

(** ** What stays the same along every run *)

(** In every reachable state the ref holds the BattleState of the last
    render, so the guards that read the ref read the current battle; and the
    Battle Log is never empty. *)
Theorem ref_tracks_battle :
  forall s : App,
    reachable s ->
    battleRef s = battle s /\
    exists (first : string) (rest : list string),
      battleLog s = first :: rest.
Proof.
  intros s Hr. split; [exact (inv_sync s (reachable_Inv s Hr))|].
  pose proof (hl_log s (reachable_Healthy s Hr)) as Hl.
  destruct (battleLog s) as [|first rest]; [now elim Hl|].
  now exists first, rest.
Qed.

Lemma ref_tracks_battle_witness :
  battleRef knockedOutApp = battle knockedOutApp.
Proof.
  exact (proj1 (ref_tracks_battle knockedOutApp knockedOutApp_reachable)).
Defined.

(** Along every run, resets included, the combatants keep the name, maxHp,
    types, moves, flair and energy of their templates: only their health
    moves. *)
Theorem combatants_keep_templates :
  forall (s : App) (side : Side),
    reachable s ->
    let p := getSide (battle s) side in
    let template := getSide INITIAL_STATE side in
    name p = name template /\ maxHp p = maxHp template /\
    types p = types template /\ moves p = moves template /\
    flair p = flair template /\ energy p = energy template.
Proof.
  intros s side Hr. cbn zeta.
  pose proof (reachable_Inv s Hr) as HI.
  destruct side; cbn [getSide INITIAL_STATE player opponent].
  - rewrite (inv_player s HI). repeat split.
  - rewrite (inv_opponent s HI). repeat split.
Qed.

Lemma combatants_keep_templates_witness :
  moves (player (battle knockedOutApp)) = moves PLAYER_TEAM.
Proof.
  destruct (combatants_keep_templates knockedOutApp Player
              knockedOutApp_reachable) as [_ [_ [_ [H _]]]].
  exact H.
Defined.

(** ** Witnesses *)

Lemma stale_resolution_always_applies_witness :
  exists s' : App,
    handle (ResolveTimeout 0 0 (1#2))
      (resetBattle (resolveTurn Player FlareCascade INITIAL_APP)) = Some s' /\
    hp (opponent (battle s')) < 270.
Proof.
  destruct (stale_resolution_always_applies
              (resolveTurn Player FlareCascade INITIAL_APP) 0 Player
              FlareCascade 0 (1#2)) as [s' [H Hlt]].
  - reflexivity.
  - split; [discriminate | reflexivity].
  - split; [discriminate | reflexivity].
  - exists s'. split; [exact H | exact Hlt].
Defined.

(** ** The reach of the opponent policy *)

(** Every move of a combatant can be chosen: for each move of its list there
    is a draw in [0, 1) for which the policy picks it. *)
Theorem chooseMove_reaches_every_move :
  forall (combatant : BattlePokemon) (move : Move),
    In move (moves combatant) ->
    exists rnd : Q, (0 <= rnd < 1)%Q /\ chooseMove rnd combatant = Some move.
Proof.
  intros combatant move Hin.
  destruct (In_nth_error _ _ Hin) as [i Hi].
  assert (Hlt : (i < List.length (moves combatant))%nat)
    by (apply nth_error_Some; congruence).
  set (n := List.length (moves combatant)) in *.
  assert (Hn : (0 < n)%nat) by lia.
  assert (Hpos : (0 < inject_Z (Z.of_nat n))%Q)
    by (change 0%Q with (inject_Z 0); rewrite <- Zlt_Qlt; lia).
  set (rnd := (inject_Z (Z.of_nat i) / inject_Z (Z.of_nat n))%Q).
  assert (Hidx : chosenIndex rnd n = Z.of_nat i).
  { apply chosenIndex_interval; [exact Hn|]. split.
    - apply Qle_refl.
    - unfold rnd, Qdiv. apply Qmult_lt_compat_r.
      + now apply Qinv_lt_0_compat.
      + rewrite <- Zlt_Qlt. lia. }
  exists rnd. split.
  - split.
    + unfold rnd. apply Qle_shift_div_l; [exact Hpos|].
      rewrite Qmult_0_l. change 0%Q with (inject_Z 0).
      rewrite <- Zle_Qle. lia.
    + unfold rnd. apply Qlt_shift_div_r; [exact Hpos|].
      rewrite Qmult_1_l, <- Zlt_Qlt. lia.
  - unfold chooseMove. fold n. fold (chosenIndex rnd n). rewrite Hidx.
    destruct (Z.ltb_spec (Z.of_nat i) 0); [lia|].
    now rewrite Nat2Z.id.
Qed.

Lemma chooseMove_reaches_every_move_witness :
  exists rnd : Q,
    (0 <= rnd < 1)%Q /\ chooseMove rnd OPPONENT_TEAM = Some IonCrash.
Proof.
  apply (chooseMove_reaches_every_move OPPONENT_TEAM IonCrash).
  cbn. right. left. reflexivity.
Defined.

(** ** The chart as a table *)

(** No key occurs twice in the chart or in one of its rows: reading the
    first entry of a key, as [lookup] does, is reading the only one. *)
Lemma TYPE_CHART_keys_distinct :
  NoDup (map fst TYPE_CHART) /\
  Forall (fun row => NoDup (map fst (snd row))) TYPE_CHART.
Proof.
  split.
  - cbn. repeat constructor; cbn; intuition discriminate.
  - repeat constructor; cbn; intuition discriminate.
Qed.
